(** * takeout-to-pdf: the message-normalization pipeline of [main.py]

    A shallow embedding of [decode_mime], [_extract_body_part],
    [_decode_body], [_extract_images], [process_email] and of the
    module-level ordering expression, with the Python library calls
    they rest on, followed by the properties of the specification.

    Python values are modelled as follows.
    - [str]: a sequence of Unicode code points.
    - [bytes]: a sequence of 8-bit bytes.
    - a call that may raise: a value of [res], either [Ret v] or
      [Raise e]; [exn] stands for instances of [Exception].
    - a generator: the finite trace of what it yields, ended by a normal
      stop or by an exception ([gen]).
    - a message or part object: the outcome of each method the program
      calls on it ([Part], [Message]); [Mime] is the part tree that the
      [email] package builds, with the methods it implements. *)

From Stdlib Require Import List Bool Arith NArith ZArith Lia.
From Stdlib Require Import Permutation Sorted.
From Stdlib.Strings Require Import Ascii String Byte.
Import ListNotations.

Set Implicit Arguments.
Set Warnings "-register-all".

(** ** Text and bytes *)

Definition codepoint := N.
Definition str := list codepoint.
Definition bytes := list byte.

(** A string literal of the source, as a [str]. *)
Definition lit (s : string) : str :=
  map N_of_ascii (list_ascii_of_string s).

Fixpoint str_eqb (a b : str) : bool :=
  match a, b with
  | [], [] => true
  | x :: a', y :: b' => N.eqb x y && str_eqb a' b'
  | _, _ => false
  end.

(** [bool(s)] for a [str]: the empty string is falsy. *)
Definition str_truthy (s : str) : bool :=
  match s with [] => false | _ :: _ => true end.

(** [a or b] on strings. *)
Definition str_or (a b : str) : str := if str_truthy a then a else b.

(** [sep.join(parts)]. *)
Fixpoint join (sep : str) (parts : list str) : str :=
  match parts with
  | [] => []
  | [p] => p
  | p :: rest => p ++ sep ++ join sep rest
  end.

(** [str.isspace] on one code point: the code points that [str.strip()]
    removes. *)
Definition isspace (c : codepoint) : bool :=
  ((9 <=? c) && (c <=? 13) || (28 <=? c) && (c <=? 32)
   || (c =? 133) || (c =? 160) || (c =? 5760)
   || (8192 <=? c) && (c <=? 8202)
   || (c =? 8232) || (c =? 8233) || (c =? 8239) || (c =? 8287)
   || (c =? 12288))%N.

Fixpoint lstrip (s : str) : str :=
  match s with
  | c :: s' => if isspace c then lstrip s' else s
  | [] => []
  end.

Definition rstrip (s : str) : str := rev (lstrip (rev s)).

(** [s.strip()]. *)
Definition strip (s : str) : str := rstrip (lstrip s).

(** [needle in haystack]. *)
Fixpoint startswith (s prefix : str) : bool :=
  match prefix, s with
  | [], _ => true
  | p :: prefix', c :: s' => N.eqb p c && startswith s' prefix'
  | _ :: _, [] => false
  end.

Fixpoint contains (haystack needle : str) : bool :=
  startswith haystack needle ||
  match haystack with
  | [] => false
  | _ :: rest => contains rest needle
  end.

(** ** Exceptions *)

Inductive exn_class : Type :=
  | UnicodeDecodeError
  | LookupError
  | UnicodeError
  | ValueError
  | TypeError
  | AttributeError
  | UnboundLocalError
  | HeaderParseError
  | RecursionError
  | RuntimeError.

Record exn : Type := mkExn {
  exn_class_of : exn_class;
  exn_str : str                 (* str(e) *)
}.

(** [except (UnicodeDecodeError, LookupError)]. [UnicodeError], the parent
    class of [UnicodeDecodeError], is not caught by it. *)
Definition is_decode_error (e : exn) : bool :=
  match exn_class_of e with
  | UnicodeDecodeError | LookupError => true
  | _ => false
  end.

(** [except Exception]. *)
Definition is_Exception (e : exn) : bool := true.

Inductive res (A : Type) : Type :=
  | Ret (a : A)
  | Raise (e : exn).
Arguments Ret {A} a.
Arguments Raise {A} e.

Definition bind {A B : Type} (c : res A) (k : A -> res B) : res B :=
  match c with
  | Ret a => k a
  | Raise e => Raise e
  end.

Notation "x <- c ;; k" := (bind c (fun x => k))
  (at level 61, c at next level, right associativity).

(** [try: body  except <catches> as e: handler e]. *)
Definition try_except {A : Type} (body : res A) (catches : exn -> bool)
    (handler : exn -> res A) : res A :=
  match body with
  | Ret a => Ret a
  | Raise e => if catches e then handler e else Raise e
  end.

Fixpoint mapM {A B : Type} (f : A -> res B) (l : list A) : res (list B) :=
  match l with
  | [] => Ret []
  | a :: l' => b <- f a ;; bs <- mapM f l' ;; Ret (b :: bs)
  end.

(** A generator, as the trace of one run. *)
Inductive gen (A : Type) : Type :=
  | Stop
  | Yield (a : A) (rest : gen A)
  | Throw (e : exn).
Arguments Stop {A}.
Arguments Yield {A} a rest.
Arguments Throw {A} e.

Fixpoint yield_all {A : Type} (items : list A) (fin : gen A) : gen A :=
  match items with
  | [] => fin
  | a :: rest => Yield a (yield_all rest fin)
  end.

(** ** Library codecs with a fixed behaviour *)

(** [b.decode("latin-1", errors="replace")]: every byte is a code point. *)
Definition latin1_decode (b : bytes) : str := map Byte.to_N b.

(** [b.decode("ascii")], strict: the first byte above 127 raises. *)
Fixpoint ascii_decode (b : bytes) : res str :=
  match b with
  | [] => Ret []
  | x :: b' =>
      if (Byte.to_N x <? 128)%N
      then s <- ascii_decode b' ;; Ret (Byte.to_N x :: s)
      else Raise (mkExn UnicodeDecodeError
                    (lit "'ascii' codec can't decode byte: ordinal not in range(128)"))
  end.

(** [bytes(s, "ascii")] for the literals of this file. *)
Definition blit (s : string) : bytes := list_byte_of_string s.

(** *** base64 (RFC 4648, standard alphabet, padded) *)

Definition b64_alphabet : bytes :=
  blit "ABCDEFGHIJKLMNOPQRSTUVWXYZabcdefghijklmnopqrstuvwxyz0123456789+/".

Definition b64_pad : byte := "="%byte.

Definition b64_char (sextet : N) : byte :=
  nth (N.to_nat sextet) b64_alphabet b64_pad.

Definition byte_of_N (n : N) : byte :=
  match Byte.of_N n with Some b => b | None => "000"%byte end.

(** [base64.b64encode(data)]: three bytes make one 24-bit group, written
    as four 6-bit digits; a last group of one or two bytes is padded. *)
Fixpoint b64encode (data : bytes) : bytes :=
  match data with
  | [] => []
  | [a] =>
      let n := (Byte.to_N a * 65536)%N in
      [b64_char (n / 262144); b64_char ((n / 4096) mod 64); b64_pad; b64_pad]
  | [a; b] =>
      let n := (Byte.to_N a * 65536 + Byte.to_N b * 256)%N in
      [b64_char (n / 262144); b64_char ((n / 4096) mod 64);
       b64_char ((n / 64) mod 64); b64_pad]
  | a :: b :: c :: rest =>
      let n := (Byte.to_N a * 65536 + Byte.to_N b * 256 + Byte.to_N c)%N in
      b64_char (n / 262144) :: b64_char ((n / 4096) mod 64)
        :: b64_char ((n / 64) mod 64) :: b64_char (n mod 64)
        :: b64encode rest
  end.

(** The value of a base64 digit. *)
Definition b64_index (c : codepoint) : option N :=
  (if (65 <=? c) && (c <=? 90) then Some (c - 65)
   else if (97 <=? c) && (c <=? 122) then Some (c - 71)
   else if (48 <=? c) && (c <=? 57) then Some (c + 4)
   else if c =? 43 then Some 62
   else if c =? 47 then Some 63
   else None)%N.

Definition is_pad (c : codepoint) : bool := (c =? 61)%N.

Definition is_nil {A : Type} (l : list A) : bool :=
  match l with [] => true | _ :: _ => false end.

(** The decoder a consumer of [ImagePayload.data] applies: groups of four
    digits give three bytes; padding is accepted in the last group only. *)
Fixpoint b64decode (s : str) : option bytes :=
  match s with
  | [] => Some []
  | c1 :: c2 :: c3 :: c4 :: rest =>
      if is_pad c4 && is_nil rest then
        if is_pad c3 then
          match b64_index c1, b64_index c2 with
          | Some s1, Some s2 =>
              let n := ((s1 * 64 + s2) * 4096)%N in
              Some [byte_of_N (n / 65536)]
          | _, _ => None
          end
        else
          match b64_index c1, b64_index c2, b64_index c3 with
          | Some s1, Some s2, Some s3 =>
              let n := (((s1 * 64 + s2) * 64 + s3) * 64)%N in
              Some [byte_of_N (n / 65536); byte_of_N ((n / 256) mod 256)]
          | _, _, _ => None
          end
      else
        match b64_index c1, b64_index c2, b64_index c3, b64_index c4 with
        | Some s1, Some s2, Some s3, Some s4 =>
            let n := (((s1 * 64 + s2) * 64 + s3) * 64 + s4)%N in
            match b64decode rest with
            | Some tail =>
                Some (byte_of_N (n / 65536) :: byte_of_N ((n / 256) mod 256)
                        :: byte_of_N (n mod 256) :: tail)
            | None => None
            end
        | _, _, _, _ => None
        end
  | _ => None
  end.

(** ** Timestamps *)

(** A [datetime.datetime]: offset-naive (wall-clock time only) or
    offset-aware (an instant and the UTC offset it was written with).
    Times count microseconds. *)
Inductive datetime : Type :=
  | Naive (wall : Z)
  | Aware (instant : Z) (utcoffset : Z).

(** [a < b] on datetimes. *)
Definition datetime_lt (a b : datetime) : res bool :=
  match a, b with
  | Naive x, Naive y => Ret (x <? y)%Z
  | Aware x _, Aware y _ => Ret (x <? y)%Z
  | _, _ => Raise (mkExn TypeError
                     (lit "can't compare offset-naive and offset-aware datetimes"))
  end.

(** [sorted(items, key=key)]: stable, and decided by [<] on the keys alone.
    An exception raised by a comparison ends the sort. *)
Section Sorted.
Variables (A K : Type) (key : A -> K) (lt : K -> K -> res bool).

Fixpoint insert (x : A) (l : list A) : res (list A) :=
  match l with
  | [] => Ret [x]
  | y :: l' =>
      c <- lt (key y) (key x) ;;
      if c then (r <- insert x l' ;; Ret (y :: r))
      else Ret (x :: y :: l')
  end.

Fixpoint sorted (items : list A) : res (list A) :=
  match items with
  | [] => Ret []
  | x :: rest => s <- sorted rest ;; insert x s
  end.

(** No element is followed at once by one with a smaller key. *)
Inductive ascending : list A -> Prop :=
  | ascending_nil : ascending []
  | ascending_one (x : A) : ascending [x]
  | ascending_cons (x y : A) (l : list A) :
      lt (key y) (key x) = Ret false ->
      ascending (y :: l) -> ascending (x :: y :: l).
End Sorted.

(** ** Messages *)

(** A part object ([email.message.Message]), as what the program observes
    of it. *)
Record Part : Type := mkPart {
  part_len : nat;                      (* len(part): its number of header fields *)
  get_content_type : str;              (* "maintype/subtype" *)
  get_content_maintype : str;
  content_charset : option str;        (* the charset parameter, when declared *)
  get_payload : res (option bytes)     (* get_payload(decode=True) *)
}.

(** [part.get_content_charset(failobj)]. *)
Definition get_content_charset (part : Part) (failobj : str) : str :=
  match content_charset part with
  | Some charset => charset
  | None => failobj
  end.

(** [bool(part)]: a [Message] defines [__len__] and no [__bool__]. *)
Definition part_truthy (part : Part) : bool := negb (Nat.eqb (part_len part) 0).

(** A message object: itself a part, with header access and the part walk. *)
Record Message : Type := mkMessage {
  as_part : Part;
  getitem : str -> option str;         (* message[name] *)
  is_multipart : bool;
  walk : gen Part
}.

(** *** The part tree built by the [email] parser *)

Inductive Mime : Type :=
  | Leaf (headers : list (str * str)) (maintype subtype : str)
         (charset : option str) (payload : bytes)
  | Multipart (headers : list (str * str)) (maintype subtype : str)
         (charset : option str) (subparts : list Mime).

Definition mime_headers (m : Mime) : list (str * str) :=
  match m with Leaf h _ _ _ _ | Multipart h _ _ _ _ => h end.

Definition mime_maintype (m : Mime) : str :=
  match m with Leaf _ t _ _ _ | Multipart _ t _ _ _ => t end.

Definition mime_subtype (m : Mime) : str :=
  match m with Leaf _ _ t _ _ | Multipart _ _ t _ _ => t end.

Definition mime_charset (m : Mime) : option str :=
  match m with Leaf _ _ _ c _ | Multipart _ _ _ c _ => c end.

Definition mime_is_multipart (m : Mime) : bool :=
  match m with Leaf _ _ _ _ _ => false | Multipart _ _ _ _ _ => true end.

(** [get_payload(decode=True)] is [None] on a multipart node. *)
Definition mime_payload (m : Mime) : option bytes :=
  match m with Leaf _ _ _ _ p => Some p | Multipart _ _ _ _ _ => None end.

(** [Message.walk]: the node itself, then its subparts, depth first. *)
Fixpoint mime_walk (m : Mime) : list Mime :=
  m :: match m with
       | Leaf _ _ _ _ _ => []
       | Multipart _ _ _ _ subparts => flat_map mime_walk subparts
       end.

Definition part_of_mime (m : Mime) : Part :=
  {| part_len := List.length (mime_headers m);
     get_content_type := mime_maintype m ++ lit "/" ++ mime_subtype m;
     get_content_maintype := mime_maintype m;
     content_charset := mime_charset m;
     get_payload := Ret (mime_payload m) |}.

(** Header names are matched without regard to ASCII case. *)
Definition lower (s : str) : str :=
  map (fun c => if (65 <=? c) && (c <=? 90) then c + 32 else c)%N s.

Fixpoint header_get (headers : list (str * str)) (name : str) : option str :=
  match headers with
  | [] => None
  | (k, v) :: rest =>
      if str_eqb (lower k) (lower name) then Some v else header_get rest name
  end.

Definition message_of_mime (m : Mime) : Message :=
  {| as_part := part_of_mime m;
     getitem := header_get (mime_headers m);
     is_multipart := mime_is_multipart m;
     walk := yield_all (map part_of_mime (mime_walk m)) Stop |}.

(** ** Records produced by the pipeline *)

Record ImagePayload : Type := mkImage {
  mime_type : str;
  data : str
}.

Record EmailData : Type := mkEmail {
  date : option datetime;
  from : str;
  subject : str;
  body : str;
  images : list ImagePayload
}.

(** ** [email.header.decode_header] *)

(** One element of the list [decode_header] returns: the chunk, of type
    [bytes] or [str], and its charset. *)
Inductive chunk : Type :=
  | Bytes (b : bytes)
  | Text (s : str).

Definition segment : Type := (chunk * option str)%type.

(** [ecre.search(header)], for the encoded-word pattern
    [=\?[^?]*?\?[qQbB]\?.*?\?=]. *)
Fixpoint find_close (s : str) : bool :=
  match s with
  | [] => false
  | c :: rest =>
      startswith s (lit "?=") || (negb (c =? 10)%N && find_close rest)
  end.

Fixpoint skip_charset (s : str) : str :=
  match s with
  | [] => []
  | c :: rest => if (c =? 63)%N then s else skip_charset rest
  end.

Definition encoded_word_at (s : str) : bool :=
  match s with
  | c1 :: c2 :: r =>
      (c1 =? 61)%N && (c2 =? 63)%N &&
      match skip_charset r with
      | q1 :: e :: q2 :: r2 =>
          (q1 =? 63)%N
          && ((e =? 113) || (e =? 81) || (e =? 98) || (e =? 66))%N
          && (q2 =? 63)%N && find_close r2
      | _ => false
      end
  | _ => false
  end.

Fixpoint has_encoded_word (s : str) : bool :=
  encoded_word_at s ||
  match s with
  | [] => false
  | _ :: rest => has_encoded_word rest
  end.

(** ** The pipeline *)

Section Pipeline.

(** Library calls whose results the program takes as given. *)

(** [decode_header] on a header that holds an encoded word: the chunks,
    or [HeaderParseError]. *)
Variable decode_encoded_words : str -> res (list segment).

(** [b.decode(encoding, errors="replace")] for an encoding other than
    ["latin-1"]. *)
Variable codec_decode : str -> bytes -> res str.

(** [BeautifulSoup(markup, "html.parser").get_text(separator="\n",
    strip=True)]. *)
Variable get_text : str -> res str.

Variable parsedate_to_datetime : str -> res datetime.

Definition decode_header (header : str) : res (list segment) :=
  if has_encoded_word header then decode_encoded_words header
  else Ret [(Text header, None)].

Definition bytes_decode (encoding : str) (b : bytes) : res str :=
  if str_eqb encoding (lit "latin-1") then Ret (latin1_decode b)
  else codec_decode encoding b.

(** *** [decode_mime] *)

(** The inner [try] of the loop body: the Latin-1 retry and its
    placeholder handler. *)
Definition latin1_retry (part : bytes) : res str :=
  try_except (bytes_decode (lit "latin-1") part) is_Exception
    (fun fallback_error =>
       Ret (lit "[Decode Error: " ++ exn_str fallback_error ++ lit "]")).

(** [encoding or "utf-8"] and [text or ""]. *)
Definition or_utf8 (encoding : option str) : str :=
  match encoding with
  | Some enc => str_or enc (lit "utf-8")
  | None => lit "utf-8"
  end.

Definition or_empty (text : option str) : str :=
  match text with
  | Some t => str_or t []
  | None => []
  end.

(** One iteration of the loop: the text appended to [decoded]. *)
Definition decode_segment (seg : segment) : res str :=
  let '(part, encoding) := seg in
  match part with
  | Bytes b =>
      try_except (bytes_decode (or_utf8 encoding) b) is_decode_error
        (fun decode_error => latin1_retry b)
  | Text s => Ret s
  end.

Definition decode_mime (text : option str) : res str :=
  segments <- decode_header (or_empty text) ;;
  decoded <- mapM decode_segment segments ;;
  Ret (join (lit " ") decoded).

(** The text one segment contributes when it contributes one. *)
Definition segment_text (seg : segment) : str :=
  match seg with
  | (Text s, _) => s
  | (Bytes b, encoding) =>
      match bytes_decode (or_utf8 encoding) b with
      | Ret s => s
      | Raise _ => latin1_decode b
      end
  end.

(** The first decode of a segment returns, or raises one of the two
    classes the first handler names. *)
Definition first_decode_handled (seg : segment) : bool :=
  match seg with
  | (Text _, _) => true
  | (Bytes b, encoding) =>
      match bytes_decode (or_utf8 encoding) b with
      | Ret _ => true
      | Raise e => is_decode_error e
      end
  end.

(** *** [_extract_body_part] *)

Fixpoint body_walk (parts : gen Part) (html_part : option Part)
    : res (option Part * option Part) :=
  match parts with
  | Stop => Ret (None, html_part)
  | Throw e => Raise e
  | Yield part rest =>
      let content_type := get_content_type part in
      if str_eqb content_type (lit "text/plain") then
        Ret (Some part, html_part)
      else if str_eqb content_type (lit "text/html") then
        body_walk rest (Some part)
      else body_walk rest html_part
  end.

Definition _extract_body_part (message : Message)
    : res (option Part * option Part) :=
  if is_multipart message then body_walk (walk message) None
  else
    let content_type := get_content_type (as_part message) in
    if str_eqb content_type (lit "text/plain")
       || str_eqb content_type (lit "text/html")
    then Ret (Some (as_part message), None)
    else Ret (None, None).

(** *** [_decode_body] *)

(** [payload.decode(encoding, errors="replace")], where [payload] may be
    [None]. *)
Definition payload_decode (payload : option bytes) (encoding : str)
    : res str :=
  match payload with
  | Some b => bytes_decode encoding b
  | None => Raise (mkExn AttributeError
                     (lit "'NoneType' object has no attribute 'decode'"))
  end.

(** The two [except] clauses. The local [payload] is unbound ([None]
    here) when [get_payload] itself raised. *)
Definition body_handlers (payload : option (option bytes)) (e : exn)
    : res str :=
  if is_decode_error e then
    match payload with
    | Some p => s <- payload_decode p (lit "latin-1") ;; Ret (strip s)
    | None => Raise (mkExn UnboundLocalError
                       (lit "cannot access local variable 'payload'"))
    end
  else Ret (lit "[Body decode error: " ++ exn_str e ++ lit "]").

Definition _decode_body (part : Part) : res str :=
  match get_payload part with
  | Raise e => body_handlers None e
  | Ret payload =>
      try_except
        (let charset := get_content_charset part (lit "utf-8") in
         body_content <- payload_decode payload charset ;;
         if str_eqb (get_content_type part) (lit "text/html")
         then get_text body_content
         else Ret (strip body_content))
        is_Exception
        (body_handlers (Some payload))
  end.

(** *** [_extract_images] *)

Definition image_error (e : exn) : ImagePayload :=
  mkImage (lit "text/plain") (lit "Image error: " ++ exn_str e).

Definition extraction_failed (e : exn) : ImagePayload :=
  mkImage (lit "text/plain") (lit "Image extraction failed: " ++ exn_str e).

(** The inner [try] statement: what one image part appends to [images]. *)
Definition image_entry (part : Part) : list ImagePayload :=
  match
    (image_data <- get_payload part ;;
     match image_data with
     | Some ((_ :: _) as b) =>
         encoded <- ascii_decode (b64encode b) ;;
         Ret [mkImage (get_content_type part) encoded]
     | _ => Ret []
     end)
  with
  | Ret appended => appended
  | Raise e => [image_error e]
  end.

(** The [for] loop, with [images] threaded through; it ends normally or
    with the exception that left the loop. *)
Fixpoint images_walk (parts : gen Part) (images : list ImagePayload)
    : list ImagePayload * option exn :=
  match parts with
  | Stop => (images, None)
  | Throw e => (images, Some e)
  | Yield part rest =>
      if str_eqb (get_content_maintype part) (lit "image")
      then images_walk rest (images ++ image_entry part)
      else images_walk rest images
  end.

Definition _extract_images (message : Message) : list ImagePayload :=
  let '(images, failure) :=
    if is_multipart message then images_walk (walk message) []
    else ([], None) in
  match failure with
  | None => images
  | Some general_error => images ++ [extraction_failed general_error]
  end.

(** *** [process_email] *)

(** [a or b] on parts that may be [None]. *)
Definition part_or (a b : option Part) : option Part :=
  match a with
  | Some p => if part_truthy p then a else b
  | None => b
  end.

Definition process_email (message : Message) : res EmailData :=
  date <- match getitem message (lit "date") with
          | Some d =>
              if str_truthy d
              then t <- parsedate_to_datetime d ;; Ret (Some t)
              else Ret None
          | None => Ret None
          end ;;
  sender <- decode_mime (getitem message (lit "from")) ;;
  subj <- decode_mime (getitem message (lit "subject")) ;;
  let from := str_or sender (lit "Unknown Sender") in
  let subject := str_or subj (lit "No Subject") in
  parts <- _extract_body_part message ;;
  let '(text_part, html_part) := parts in
  body <- match part_or text_part html_part with
          | Some target_part =>
              if part_truthy target_part
              then b <- _decode_body target_part ;;
                   Ret (str_or b (lit "[Empty content]"))
              else Ret (lit "[No content available]")
          | None => Ret (lit "[No content available]")
          end ;;
  Ret (mkEmail date from subject body (_extract_images message)).

End Pipeline.

(** ** The ordering stage *)

Definition has_date (e : EmailData) : bool :=
  match date e with Some _ => true | None => false end.

(** [<] on the sort keys [x["date"]]. *)
Definition key_lt (a b : option datetime) : res bool :=
  match a, b with
  | Some x, Some y => datetime_lt x y
  | _, _ => Raise (mkExn TypeError
                     (lit "'<' not supported between instances of 'NoneType' and 'datetime.datetime'"))
  end.

(** [sorted([e for e in emails if e["date"]], key=lambda x: x["date"])
    + [e for e in emails if not e["date"]]]. *)
Definition order (emails : list EmailData) : res (list EmailData) :=
  dated <- sorted date key_lt (filter has_date emails) ;;
  Ret (dated ++ filter (fun e => negb (has_date e)) emails).

(** ** A concrete library, for the examples

    [sample_codecs] answers as CPython's codecs do on the inputs used
    below: the ascii codec (a byte above 127 becomes U+FFFD), the utf-8
    codec on ASCII-only bytes (where it agrees with ascii), the codec
    ["undefined"], whose decoder raises [UnicodeError] whatever the error
    policy, and [LookupError] for a name the registry does not know. *)

Definition in_names (name : str) (names : list string) : bool :=
  existsb (fun n => str_eqb name (lit n)) names.

Definition sample_codecs (encoding : str) (b : bytes) : res str :=
  if in_names encoding ["utf-8"; "ascii"; "us-ascii"]%string then
    Ret (map (fun x => if (Byte.to_N x <? 128)%N then Byte.to_N x else 65533%N) b)
  else if in_names encoding ["undefined"]%string then
    Raise (mkExn UnicodeError (lit "undefined encoding"))
  else
    Raise (mkExn LookupError (lit "unknown encoding: " ++ encoding)).

(** [decode_header] on the encoded headers of the examples. The header
    [=?utf-8?b?a?=] holds a base64 word that cannot be padded to a valid
    length, a [HeaderParseError]; headers outside the examples are
    answered the same way. *)
Definition sample_encoded_words (header : str) : res (list segment) :=
  if str_eqb header (lit "=?x-unknown?b?YWJj?= tail") then
    Ret [(Bytes (blit "abc"), Some (lit "x-unknown"));
         (Bytes (blit " tail"), None)]
  else if str_eqb header (lit "=?undefined?q?abc?=") then
    Ret [(Bytes (blit "abc"), Some (lit "undefined"))]
  else if str_eqb header (lit "=?utf-8?B?Sm9obiBEb2U=?=") then
    Ret [(Bytes (blit "John Doe"), Some (lit "utf-8"))]
  else
    Raise (mkExn HeaderParseError (lit "Base64 decoding error")).

(** A stand-in for the markup stripper: it keeps the text outside tags. *)
Fixpoint strip_tags (inside : bool) (s : str) : str :=
  match s with
  | [] => []
  | c :: rest =>
      if (c =? 60)%N then strip_tags true rest
      else if (c =? 62)%N then strip_tags false rest
      else if inside then strip_tags inside rest
      else c :: strip_tags inside rest
  end.

Definition sample_get_text (markup : str) : res str :=
  Ret (strip (strip_tags false markup)).

(** The date parser on the dates of the examples: an offset other than
    [-0000] gives an aware value, [-0000] a naive one, and a text that is
    no date raises [ValueError]. *)
Definition sample_parsedate (d : str) : res datetime :=
  if str_eqb d (lit "Mon, 01 Jan 2024 00:00:00 +0000") then
    Ret (Aware 1704067200000000 0)
  else if str_eqb d (lit "Tue, 02 Jan 2024 00:00:00 -0000") then
    Ret (Naive 1704153600000000)
  else
    Raise (mkExn ValueError (lit "Invalid date value or format")).

Definition sample_decode_mime : option str -> res str :=
  decode_mime sample_encoded_words sample_codecs.

Definition sample_process_email : Message -> res EmailData :=
  process_email sample_encoded_words sample_codecs sample_get_text
    sample_parsedate.

(** ** Vocabulary of the properties *)

Definition is_plain (part : Part) : bool :=
  str_eqb (get_content_type part) (lit "text/plain").

Definition is_html (part : Part) : bool :=
  str_eqb (get_content_type part) (lit "text/html").

Definition is_image (part : Part) : bool :=
  str_eqb (get_content_maintype part) (lit "image").

(** [a] when present, else [b]. *)
Definition or_else {A : Type} (a b : option A) : option A :=
  match a with Some _ => a | None => b end.

(** The last HTML part of a sequence of parts. *)
Definition last_html (parts : list Part) : option Part :=
  last (map Some (filter is_html parts)) None.

(** The parts walked before the first plain-text part. *)
Fixpoint before_plain (parts : list Part) : list Part :=
  match parts with
  | [] => []
  | p :: rest => if is_plain p then [] else p :: before_plain rest
  end.

(** The parts of a message tree, in walk order. *)
Definition mime_parts (m : Mime) : list Part :=
  map part_of_mime (mime_walk m).

(** The payload of a part decodes to nothing: [None] or no bytes. *)
Definition payload_empty (part : Part) : bool :=
  match get_payload part with
  | Ret None | Ret (Some []) => true
  | _ => false
  end.

(** What an image part contributes to the result: a diagnostic when the
    payload decode raised, nothing when it gave nothing, the encoded
    payload otherwise. *)
Definition image_outcome (part : Part) : list ImagePayload :=
  match get_payload part with
  | Raise e => [image_error e]
  | Ret (Some ((_ :: _) as b)) =>
      [mkImage (get_content_type part) (latin1_decode (b64encode b))]
  | Ret _ => []
  end.

(** ** Example messages *)

Definition content_type_header (value : string) : str * str :=
  (lit "Content-Type", lit value).

Definition html_leaf : Mime :=
  Leaf [content_type_header "text/html"] (lit "text") (lit "html") None
       (blit "<p>Hi</p>").

Definition plain_leaf : Mime :=
  Leaf [content_type_header "text/plain"] (lit "text") (lit "plain") None
       (blit "Hello").

Definition image_leaf : Mime :=
  Leaf [content_type_header "image/png"] (lit "image") (lit "png") None
       (blit "PNG").

Definition empty_image_leaf : Mime :=
  Leaf [content_type_header "image/png"] (lit "image") (lit "png") None [].

(** An HTML part whose declared character set no codec is registered for. *)
Definition html_leaf_unknown_charset : Mime :=
  Leaf [content_type_header "text/html; charset=x-unknown"]
       (lit "text") (lit "html") (Some (lit "x-unknown")) (blit "<p>Hi</p>").

(** A single-part message without a [Date] header. *)
Definition undated_message : Mime :=
  Leaf [(lit "From", lit "=?utf-8?B?Sm9obiBEb2U=?=");
        (lit "Subject", lit "Hi"); content_type_header "text/plain"]
       (lit "text") (lit "plain") None (blit "Hello").

Definition multipart (subparts : list Mime) : Mime :=
  Multipart [content_type_header "multipart/mixed"]
            (lit "multipart") (lit "mixed") None subparts.

(** A single-part message with the given [Date] header. *)
Definition dated_message (d : string) : Mime :=
  Leaf [(lit "Date", lit d); (lit "From", lit "=?utf-8?B?Sm9obiBEb2U=?=");
        (lit "Subject", lit "Hi"); content_type_header "text/plain"]
       (lit "text") (lit "plain") None (blit "Hello").

(** A message object whose walk yields the root and an image part and then
    raises. *)
Definition recursion_error : exn :=
  mkExn RecursionError (lit "maximum recursion depth exceeded").

Definition failing_walk_message : Message :=
  {| as_part := part_of_mime (multipart [image_leaf]);
     getitem := header_get (mime_headers (multipart [image_leaf]));
     is_multipart := true;
     walk := yield_all (mime_parts (multipart [image_leaf]))
               (Throw recursion_error) |}.

(** A part whose payload decode raises. *)
Definition broken_image_part : Part :=
  {| part_len := 1;
     get_content_type := lit "image/png";
     get_content_maintype := lit "image";
     content_charset := None;
     get_payload := Raise (mkExn ValueError (lit "bad payload")) |}.

(** The records [process_email] gives for two of the example dates. *)
Definition aware_record : EmailData :=
  mkEmail (Some (Aware 1704067200000000 0))
          (lit "John Doe") (lit "Hi") (lit "Hello") [].

Definition naive_record : EmailData :=
  mkEmail (Some (Naive 1704153600000000))
          (lit "John Doe") (lit "Hi") (lit "Hello") [].


(** The instant a timestamp is ordered by among timestamps of its kind. *)
Definition ticks (d : datetime) : Z :=
  match d with
  | Naive wall => wall
  | Aware instant _ => instant
  end.

Definition record_ticks (e : EmailData) : Z :=
  match date e with
  | Some d => ticks d
  | None => 0%Z
  end.

Definition is_aware (d : datetime) : bool :=
  match d with Aware _ _ => true | Naive _ => false end.

(** The timestamps present in a sequence of records are all offset-aware,
    or all offset-naive. *)
Definition comparable (emails : list EmailData) : Prop :=
  (forall e d, In e emails -> date e = Some d -> is_aware d = true)
  \/ (forall e d, In e emails -> date e = Some d -> is_aware d = false).


(** Stable insertion sort by an integer measure, the reference for
    [sorted] when no comparison raises. *)
Section SortBy.
Variables (A : Type) (measure : A -> Z).

Fixpoint insert_by (x : A) (l : list A) : list A :=
  match l with
  | [] => [x]
  | y :: l' =>
      if (measure y <? measure x)%Z then y :: insert_by x l'
      else x :: y :: l'
  end.

Fixpoint sort_by (l : list A) : list A :=
  match l with
  | [] => []
  | x :: rest => insert_by x (sort_by rest)
  end.
End SortBy.


(** ** The rest of the run *)

(** The items a generator yields before it stops or raises. *)
Fixpoint gen_items {A : Type} (g : gen A) : list A :=
  match g with
  | Stop => []
  | Throw _ => []
  | Yield a rest => a :: gen_items rest
  end.

(** The ["date"] entry of [email_data] in [process_email]:
    [parsedate_to_datetime(message["date"]) if message["date"] else None]. *)
Definition date_field (parsedate_to_datetime : str -> res datetime)
    (header : option str) : res (option datetime) :=
  match header with
  | Some d =>
      if str_truthy d
      then t <- parsedate_to_datetime d ;; Ret (Some t)
      else Ret None
  | None => Ret None
  end.

(** The loading loop: [for message in mbox: emails.append(
    process_email(message))]; an exception of [process_email] leaves the
    loop. *)
Definition load_emails
    (decode_encoded_words : str -> res (list segment))
    (codec_decode : str -> bytes -> res str)
    (get_text : str -> res str)
    (parsedate_to_datetime : str -> res datetime)
    (mbox : list Message) : res (list EmailData) :=
  mapM (process_email decode_encoded_words codec_decode get_text
          parsedate_to_datetime) mbox.

(** [s.replace(old, new)] for a one-character [old]. *)
Definition replace_char (old : codepoint) (new : str) (s : str) : str :=
  flat_map (fun c => if (c =? old)%N then new else [c]) s.

(** [html.escape(s)], with [quote=True]: the ampersand first, then the
    angle brackets, then the two quotation marks. *)
Definition escape (s : str) : str :=
  let s := replace_char 38%N (lit "&amp;") s in
  let s := replace_char 60%N (lit "&lt;") s in
  let s := replace_char 62%N (lit "&gt;") s in
  let s := replace_char 34%N (lit "&quot;") s in
  replace_char 39%N (lit "&#x27;") s.

(** A character of base64 text: a digit of the alphabet or the padding. *)
Definition is_b64_text (c : codepoint) : bool :=
  match b64_index c with
  | Some _ => true
  | None => is_pad c
  end.

(** The text neither starts nor ends with a whitespace character. *)
Definition starts_with_space (s : str) : bool :=
  match s with
  | c :: _ => isspace c
  | [] => false
  end.

Definition trimmed (s : str) : bool :=
  negb (starts_with_space s) && negb (starts_with_space (rev s)).

(** A text part without any header field, as a multipart body may hold
    one: its type is the default, [text/plain]. *)
Definition headerless_plain_leaf : Mime :=
  Leaf [] (lit "text") (lit "plain") None (blit "Hello").

(** A part whose payload decode raises [LookupError]. *)
Definition lookup_error_part : Part :=
  {| part_len := 1;
     get_content_type := lit "text/plain";
     get_content_maintype := lit "text";
     content_charset := None;
     get_payload := Raise (mkExn LookupError (lit "unknown encoding")) |}.


(** A message object whose walk yields the root, an HTML part and a
    plain-text part and then raises. *)
Definition plain_then_failing_walk_message : Message :=
  {| as_part := part_of_mime (multipart [html_leaf; plain_leaf]);
     getitem := header_get (mime_headers (multipart [html_leaf; plain_leaf]));
     is_multipart := true;
     walk := yield_all
               [part_of_mime (multipart [html_leaf; plain_leaf]);
                part_of_mime html_leaf]
               (Yield (part_of_mime plain_leaf) (Throw recursion_error)) |}.


(** The ["body"] entry of [email_data] in [process_email], from the two
    parts body selection returned: [target_part = text_part or html_part],
    then the decode of a truthy target, an empty text replaced. *)
Definition body_field (codec_decode : str -> bytes -> res str)
    (get_text : str -> res str) (text_part html_part : option Part)
    : res str :=
  match part_or text_part html_part with
  | Some target_part =>
      if part_truthy target_part
      then b <- _decode_body codec_decode get_text target_part ;;
           Ret (str_or b (lit "[Empty content]"))
      else Ret (lit "[No content available]")
  | None => Ret (lit "[No content available]")
  end.


(** The kind of the timestamp of a record: offset-aware or not. *)
Definition record_aware (e : EmailData) : bool :=
  match date e with
  | Some d => is_aware d
  | None => false
  end.

(** An undated record, for the examples. *)
Definition undated_record : EmailData :=
  mkEmail None (lit "John Doe") (lit "Hi") (lit "Hello") [].

(** A later offset-aware record. *)
Definition later_aware_record : EmailData :=
  mkEmail (Some (Aware 1704153600000000 3600000000))
          (lit "John Doe") (lit "Hi") (lit "Hello") [].


(** * Properties *)

Unset Implicit Arguments.

(** ** Text *)

Lemma str_eqb_refl (s : str) : str_eqb s s = true.
Proof.
  induction s as [|c s IH]; simpl; [reflexivity|].
  now rewrite N.eqb_refl, IH.
Qed.

Lemma str_eqb_eq (a b : str) : str_eqb a b = true <-> a = b.
Proof.
  split; [|intros ->; apply str_eqb_refl].
  revert b; induction a as [|x a IH]; intros [|y b]; simpl; try discriminate.
  - reflexivity.
  - intros H. apply andb_true_iff in H as [Hx Hab].
    apply N.eqb_eq in Hx. apply IH in Hab. now subst.
Qed.

Lemma str_or_truthy (a b : str) : str_truthy a = true -> str_or a b = a.
Proof. unfold str_or. now intros ->. Qed.

(** ** The error monad *)

Lemma mapM_app {A B : Type} (f : A -> res B) (l1 l2 : list A) r1 r2 :
  mapM f l1 = Ret r1 -> mapM f l2 = Ret r2 ->
  mapM f (l1 ++ l2) = Ret (r1 ++ r2).
Proof.
  revert r1; induction l1 as [|a l1 IH]; intros r1; simpl.
  - intros [= <-]. auto.
  - destruct (f a) as [b|e]; simpl; [|discriminate].
    destruct (mapM f l1) as [bs|e]; simpl; [|discriminate].
    intros [= <-] H2. now rewrite (IH bs eq_refl H2).
Qed.

Lemma mapM_ret {A B : Type} (f : A -> res B) (g : A -> B) (l : list A) :
  Forall (fun a => f a = Ret (g a)) l -> mapM f l = Ret (map g l).
Proof.
  induction 1 as [|a l Ha _ IH]; simpl; [reflexivity|].
  now rewrite Ha, IH.
Qed.

(** ** Header decoding *)

Section HeaderDecoder.

Variable decode_encoded_words : str -> res (list segment).
Variable codec_decode : str -> bytes -> res str.

Local Abbreviation bytes_decode := (bytes_decode codec_decode).
Local Abbreviation latin1_retry := (latin1_retry codec_decode).
Local Abbreviation decode_segment := (decode_segment codec_decode).
Local Abbreviation decode_header := (decode_header decode_encoded_words).
Local Abbreviation decode_mime := (decode_mime decode_encoded_words codec_decode).
Local Abbreviation segment_text := (segment_text codec_decode).
Local Abbreviation first_decode_handled := (first_decode_handled codec_decode).

(** The Latin-1 decode returns on every byte sequence. *)
Lemma bytes_decode_latin1 (b : bytes) :
  bytes_decode (lit "latin-1") b = Ret (latin1_decode b).
Proof. reflexivity. Qed.

(** Hence the body of the inner [try] never raises, and its handler, the
    only place that builds the placeholder, is never entered. *)
Lemma latin1_retry_returns (b : bytes) :
  latin1_retry b = Ret (latin1_decode b).
Proof. reflexivity. Qed.

Lemma decode_segment_handled (seg : segment) :
  first_decode_handled seg = true ->
  decode_segment seg = Ret (segment_text seg).
Proof.
  destruct seg as [[b|s] encoding]; simpl; [|reflexivity].
  unfold try_except.
  destruct (bytes_decode (or_utf8 encoding) b) as [s|e]; [reflexivity|].
  intros ->. apply latin1_retry_returns.
Qed.

Lemma decode_segment_unsupported (b : bytes) (cs : str) (e : exn) :
  str_truthy cs = true ->
  bytes_decode cs b = Raise e ->
  exn_class_of e = LookupError ->
  decode_segment (Bytes b, Some cs) = Ret (latin1_decode b).
Proof.
  intros Hcs Hdec Hcls. simpl. rewrite (str_or_truthy _ _ Hcs), Hdec.
  unfold try_except, is_decode_error. now rewrite Hcls.
Qed.



End HeaderDecoder.




(** So does the exception of [decode_header] on a malformed base64 word. *)
Lemma decode_mime_raises_on_malformed_word :
  sample_decode_mime (Some (lit "=?utf-8?b?a?="))
  = Raise (mkExn HeaderParseError (lit "Base64 decoding error")).
Proof. reflexivity. Qed.


(** ** base64 *)

Lemma list_ind3 {A : Type} (P : list A -> Prop) :
  P [] -> (forall a, P [a]) -> (forall a b, P [a; b]) ->
  (forall a b c l, P l -> P (a :: b :: c :: l)) ->
  forall l, P l.
Proof.
  intros H0 H1 H2 H3 l.
  enough (H : P l /\ (forall a, P (a :: l)) /\ (forall a b, P (a :: b :: l)))
    by apply H.
  induction l as [|x l (IH0 & IH1 & IH2)]; repeat split; auto.
Qed.

(** A 6-bit value and its digit determine each other; no digit is the
    padding sign, and every digit is an ASCII character. *)
Lemma b64_char_digit (s : N) :
  (s < 64)%N ->
  b64_index (Byte.to_N (b64_char s)) = Some s
  /\ is_pad (Byte.to_N (b64_char s)) = false
  /\ (Byte.to_N (b64_char s) <? 128)%N = true.
Proof.
  intros Hs.
  assert (Hall : forallb
            (fun s => match b64_index (Byte.to_N (b64_char s)) with
                      | Some s' => N.eqb s' s
                      | None => false
                      end
                      && negb (is_pad (Byte.to_N (b64_char s)))
                      && (Byte.to_N (b64_char s) <? 128)%N)
            (map N.of_nat (seq 0 64)) = true) by (vm_compute; reflexivity).
  rewrite forallb_forall in Hall. specialize (Hall s).
  assert (Hin : In s (map N.of_nat (seq 0 64))).
  { rewrite <- (N2Nat.id s). apply in_map. apply in_seq. lia. }
  apply Hall in Hin.
  apply andb_true_iff in Hin as [Hin H128].
  apply andb_true_iff in Hin as [Hidx Hpad].
  repeat split; [|now apply negb_true_iff in Hpad|exact H128].
  destruct (b64_index (Byte.to_N (b64_char s))) as [s'|]; [|discriminate].
  apply N.eqb_eq in Hidx. now subst.
Qed.

Lemma byte_of_to_N (a : byte) : byte_of_N (Byte.to_N a) = a.
Proof. unfold byte_of_N. now rewrite Byte.of_to_N. Qed.

Ltac byte_arith :=
  zify; Z.to_euclidean_division_equations; lia.

(** The four digits of a 24-bit group, and the group read back from them. *)
Lemma b64_group (A B C : N) :
  (A <= 255)%N -> (B <= 255)%N -> (C <= 255)%N ->
  let n := (A * 65536 + B * 256 + C)%N in
  let s1 := (n / 262144)%N in
  let s2 := ((n / 4096) mod 64)%N in
  let s3 := ((n / 64) mod 64)%N in
  let s4 := (n mod 64)%N in
  (s1 < 64 /\ s2 < 64 /\ s3 < 64 /\ s4 < 64
   /\ ((s1 * 64 + s2) * 64 + s3) * 64 + s4 = n
   /\ n / 65536 = A /\ (n / 256) mod 256 = B /\ n mod 256 = C)%N.
Proof.
  intros HA HB HC n s1 s2 s3 s4. subst n s1 s2 s3 s4.
  repeat split; byte_arith.
Qed.

Lemma b64decode_group (s1 s2 s3 s4 : N) (rest : bytes) :
  (s1 < 64)%N -> (s2 < 64)%N -> (s3 < 64)%N -> (s4 < 64)%N ->
  b64decode (latin1_decode
               (b64_char s1 :: b64_char s2 :: b64_char s3 :: b64_char s4
                  :: rest))
  = let n := (((s1 * 64 + s2) * 64 + s3) * 64 + s4)%N in
    match b64decode (latin1_decode rest) with
    | Some tail =>
        Some (byte_of_N (n / 65536) :: byte_of_N ((n / 256) mod 256)
                :: byte_of_N (n mod 256) :: tail)
    | None => None
    end.
Proof.
  intros H1 H2 H3 H4.
  destruct (b64_char_digit s1 H1) as (I1 & _ & _).
  destruct (b64_char_digit s2 H2) as (I2 & _ & _).
  destruct (b64_char_digit s3 H3) as (I3 & _ & _).
  destruct (b64_char_digit s4 H4) as (I4 & P4 & _).
  cbn [latin1_decode map b64decode].
  rewrite P4, I1, I2, I3, I4. reflexivity.
Qed.

(** Decoding an encoding gives the bytes back. *)
Lemma b64decode_b64encode (b : bytes) :
  b64decode (latin1_decode (b64encode b)) = Some b.
Proof.
  induction b as [|a|a b|a b c rest IH] using list_ind3.
  - reflexivity.
  - pose proof (Byte.to_N_bounded a) as Ha.
    cbn [b64encode]. cbv zeta.
    destruct (b64_char_digit (Byte.to_N a * 65536 / 262144)) as (I1 & _ & _);
      [byte_arith|].
    destruct (b64_char_digit ((Byte.to_N a * 65536 / 4096) mod 64))
      as (I2 & _ & _); [byte_arith|].
    cbn [latin1_decode map b64decode].
    change (is_pad (Byte.to_N b64_pad)) with true.
    cbn [andb is_nil]. rewrite I1, I2. cbv zeta.
    replace (((Byte.to_N a * 65536 / 262144) * 64
              + (Byte.to_N a * 65536 / 4096) mod 64) * 4096 / 65536)%N
      with (Byte.to_N a) by byte_arith.
    now rewrite byte_of_to_N.
  - pose proof (Byte.to_N_bounded a) as Ha.
    pose proof (Byte.to_N_bounded b) as Hb.
    cbn [b64encode]. cbv zeta.
    set (n := (Byte.to_N a * 65536 + Byte.to_N b * 256)%N).
    destruct (b64_char_digit (n / 262144)) as (I1 & _ & _);
      [subst n; byte_arith|].
    destruct (b64_char_digit ((n / 4096) mod 64)) as (I2 & _ & _);
      [subst n; byte_arith|].
    destruct (b64_char_digit ((n / 64) mod 64)) as (I3 & P3 & _);
      [subst n; byte_arith|].
    cbn [latin1_decode map b64decode].
    change (is_pad (Byte.to_N b64_pad)) with true.
    cbn [andb is_nil]. rewrite P3, I1, I2, I3. cbv zeta.
    set (m := (((n / 262144 * 64 + (n / 4096) mod 64) * 64
                + (n / 64) mod 64) * 64)%N).
    replace (m / 65536)%N with (Byte.to_N a) by (subst m n; byte_arith).
    replace ((m / 256) mod 256)%N with (Byte.to_N b)
      by (subst m n; byte_arith).
    now rewrite !byte_of_to_N.
  - pose proof (Byte.to_N_bounded a) as Ha.
    pose proof (Byte.to_N_bounded b) as Hb.
    pose proof (Byte.to_N_bounded c) as Hc.
    cbn [b64encode]. cbv zeta.
    destruct (b64_group _ _ _ Ha Hb Hc)
      as (H1 & H2 & H3 & H4 & Hn & HA & HB & HC).
    rewrite (b64decode_group _ _ _ _ _ H1 H2 H3 H4). cbv zeta.
    rewrite IH, Hn, HA, HB, HC. now rewrite !byte_of_to_N.
Qed.

(** The encoding is ASCII text, so [.decode("ascii")] returns it. *)
Lemma b64encode_ascii (b : bytes) :
  ascii_decode (b64encode b) = Ret (latin1_decode (b64encode b)).
Proof.
  assert (Hchar : forall s rest,
             (s < 64)%N ->
             ascii_decode rest = Ret (latin1_decode rest) ->
             ascii_decode (b64_char s :: rest)
             = Ret (latin1_decode (b64_char s :: rest))).
  { intros s rest Hs Hrest. cbn [ascii_decode].
    destruct (b64_char_digit s Hs) as (_ & _ & ->). now rewrite Hrest. }
  induction b as [|a|a b|a b c rest IH] using list_ind3.
  - reflexivity.
  - pose proof (Byte.to_N_bounded a) as Ha.
    cbn [b64encode]. cbv zeta.
    repeat (apply Hchar; [byte_arith|]). reflexivity.
  - pose proof (Byte.to_N_bounded a) as Ha.
    pose proof (Byte.to_N_bounded b) as Hb.
    cbn [b64encode]. cbv zeta.
    repeat (apply Hchar; [byte_arith|]). reflexivity.
  - pose proof (Byte.to_N_bounded a) as Ha.
    pose proof (Byte.to_N_bounded b) as Hb.
    pose proof (Byte.to_N_bounded c) as Hc.
    cbn [b64encode]. cbv zeta.
    repeat (apply Hchar; [byte_arith|]). exact IH.
Qed.

(** ** Body selection *)

Lemma last_some_cons {A : Type} (x : A) (l : list A) :
  last (map Some (x :: l)) None = or_else (last (map Some l) None) (Some x).
Proof.
  revert x; induction l as [|y l IH]; intros x; [reflexivity|].
  change (last (map Some (x :: y :: l)) None)
    with (last (map Some (y :: l)) None).
  rewrite IH. now destruct (last (map Some l) None).
Qed.

Lemma last_html_cons (p : Part) (parts : list Part) :
  last_html (p :: parts)
  = or_else (last_html parts) (if is_html p then Some p else None).
Proof.
  unfold last_html. cbn [filter]. destruct (is_html p).
  - apply last_some_cons.
  - now destruct (last (map Some (filter is_html parts)) None).
Qed.

(** The loop over a walk that yields [parts] and goes on as [fin]: it
    returns at the first plain-text part and never looks at what follows. *)
Lemma body_walk_yield_all (parts : list Part) (fin : gen Part)
    (html_part : option Part) :
  body_walk (yield_all parts fin) html_part
  = match find is_plain parts with
    | Some p =>
        Ret (Some p, or_else (last_html (before_plain parts)) html_part)
    | None => body_walk fin (or_else (last_html parts) html_part)
    end.
Proof.
  revert html_part; induction parts as [|p parts IH]; intros html_part.
  - reflexivity.
  - cbn [yield_all body_walk find before_plain]. fold (is_plain p).
    fold (is_html p). destruct (is_plain p) eqn:Hplain; [reflexivity|].
    rewrite last_html_cons.
    destruct (is_html p) eqn:Hhtml; rewrite IH;
      destruct (find is_plain parts); try rewrite last_html_cons;
      try rewrite Hhtml;
      repeat match goal with
             | |- context [or_else (last_html ?l) _] =>
                 destruct (last_html l)
             end; reflexivity.
Qed.

Lemma before_plain_none (parts : list Part) :
  find is_plain parts = None -> before_plain parts = parts.
Proof.
  induction parts as [|p parts IH]; cbn [find before_plain]; [reflexivity|].
  destruct (is_plain p); [discriminate|]. intros H. now rewrite IH.
Qed.

(** C6. For every multipart message, the candidate is the first
    plain-text part in walk order, whatever HTML parts come before it, and
    the walk stops there (the fallback is the last HTML part seen before
    it); when there is no plain-text part the candidate is absent and the
    fallback is the last HTML part of the whole walk; when there is
    neither, both are absent. *)
Theorem extract_body_part_multipart (m : Mime) :
  mime_is_multipart m = true ->
  _extract_body_part (message_of_mime m)
  = Ret (find is_plain (mime_parts m),
         last_html (before_plain (mime_parts m)))
  /\ (find is_plain (mime_parts m) = None ->
      _extract_body_part (message_of_mime m)
      = Ret (None, last_html (mime_parts m)))
  /\ (find is_plain (mime_parts m) = None ->
      filter is_html (mime_parts m) = [] ->
      _extract_body_part (message_of_mime m) = Ret (None, None)).
Proof.
  intros Hmulti.
  assert (Heq : _extract_body_part (message_of_mime m)
                = Ret (find is_plain (mime_parts m),
                       last_html (before_plain (mime_parts m)))).
  { unfold _extract_body_part. cbn [is_multipart message_of_mime walk].
    rewrite Hmulti. fold (mime_parts m). rewrite body_walk_yield_all.
    destruct (find is_plain (mime_parts m)) eqn:Hfind.
    - now destruct (last_html (before_plain (mime_parts m))).
    - rewrite (before_plain_none _ Hfind). cbn [body_walk].
      now destruct (last_html (mime_parts m)). }
  split; [exact Heq|split].
  - intros Hnone. rewrite Heq, Hnone. now rewrite (before_plain_none _ Hnone).
  - intros Hnone Hnohtml. rewrite Heq, Hnone.
    rewrite (before_plain_none _ Hnone). unfold last_html.
    now rewrite Hnohtml.
Qed.

Lemma extract_body_part_multipart_witness :
  _extract_body_part (message_of_mime (multipart [html_leaf; plain_leaf; html_leaf]))
  = Ret (Some (part_of_mime plain_leaf), Some (part_of_mime html_leaf)).
Proof.
  apply (extract_body_part_multipart
           (multipart [html_leaf; plain_leaf; html_leaf])).
  reflexivity.
Defined.

(** ** Attachment extraction *)

Lemma image_entry_outcome (part : Part) :
  image_entry part = image_outcome part.
Proof.
  unfold image_entry, image_outcome.
  destruct (get_payload part) as [[[|x b]|]|e]; cbn [bind]; try reflexivity.
  now rewrite b64encode_ascii.
Qed.

Lemma images_walk_yield_all (parts : list Part) (fin : gen Part)
    (images : list ImagePayload) :
  images_walk (yield_all parts fin) images
  = images_walk fin
      (images ++ flat_map image_outcome (filter is_image parts)).
Proof.
  revert images; induction parts as [|p parts IH]; intros images.
  - cbn. now rewrite app_nil_r.
  - cbn [yield_all images_walk filter]. fold (is_image p).
    destruct (is_image p); rewrite IH; [|reflexivity].
    cbn [flat_map]. now rewrite image_entry_outcome, app_assoc.
Qed.

Lemma images_walk_keeps (g : gen Part) (images : list ImagePayload)
    (x : ImagePayload) :
  In x images -> In x (fst (images_walk g images)).
Proof.
  revert images; induction g as [|p rest IH|e]; intros images Hin;
    cbn [images_walk fst]; try assumption.
  fold (is_image p). destruct (is_image p); apply IH;
    [apply in_or_app; now left|assumption].
Qed.

Lemma extract_images_keeps (message : Message) (x : ImagePayload) :
  is_multipart message = true ->
  In x (fst (images_walk (walk message) [])) ->
  In x (_extract_images message).
Proof.
  intros Hmulti Hin. unfold _extract_images. rewrite Hmulti.
  destruct (images_walk (walk message) []) as [images [e|]]; cbn in *;
    [apply in_or_app; now left|assumption].
Qed.

Lemma image_outcome_length (part : Part) :
  List.length (image_outcome part) = if payload_empty part then 0 else 1.
Proof.
  unfold image_outcome, payload_empty.
  now destruct (get_payload part) as [[[|x b]|]|e].
Qed.

Lemma flat_map_outcome_length (parts : list Part) :
  List.length (flat_map image_outcome parts)
  = List.length (filter (fun p => negb (payload_empty p)) parts).
Proof.
  induction parts as [|p parts IH]; [reflexivity|].
  cbn [flat_map filter]. rewrite length_app, image_outcome_length, IH.
  now destruct (payload_empty p).
Qed.

Lemma filter_filter {A : Type} (f g : A -> bool) (l : list A) :
  filter g (filter f l) = filter (fun x => f x && g x) l.
Proof.
  induction l as [|x l IH]; [reflexivity|].
  cbn [filter]. destruct (f x); cbn [filter andb]; now rewrite IH.
Qed.

(** C2, as the code has it. For every multipart message whose walk
    completes, the result lists in walk order what each image part gives:
    a diagnostic (["text/plain"], ["Image error: ..."]) when its payload
    decode raised, its type and base64 text when the decode gave bytes,
    and nothing when the decode gave [None] or no bytes. The number of
    entries is the number of image parts whose payload is not empty. *)
Theorem extract_images_entries (message : Message) (parts : list Part) :
  is_multipart message = true ->
  walk message = yield_all parts Stop ->
  _extract_images message = flat_map image_outcome (filter is_image parts)
  /\ List.length (_extract_images message)
     = List.length (filter (fun p => is_image p && negb (payload_empty p)) parts)
  /\ (forall part e,
        In part parts -> is_image part = true ->
        get_payload part = Raise e ->
        In (mkImage (lit "text/plain") (lit "Image error: " ++ exn_str e))
           (_extract_images message)).
Proof.
  intros Hmulti Hwalk.
  assert (Heq : _extract_images message
                = flat_map image_outcome (filter is_image parts)).
  { unfold _extract_images. rewrite Hmulti, Hwalk, images_walk_yield_all.
    reflexivity. }
  split; [exact Heq|split].
  - now rewrite Heq, flat_map_outcome_length, filter_filter.
  - intros part e Hin Himage Hraise. rewrite Heq.
    apply in_flat_map. exists part. split.
    + apply filter_In. now split.
    + unfold image_outcome. rewrite Hraise. now left.
Qed.

Lemma extract_images_entries_witness :
  _extract_images
    (message_of_mime (multipart [image_leaf; empty_image_leaf; plain_leaf]))
  = [mkImage (lit "image/png") (lit "UE5H")].
Proof.
  apply (extract_images_entries
           (message_of_mime
              (multipart [image_leaf; empty_image_leaf; plain_leaf]))
           (mime_parts (multipart [image_leaf; empty_image_leaf; plain_leaf])));
    reflexivity.
Defined.

(** C2, as stated, fails: an image part whose payload decodes to no bytes
    is walked and leaves no entry, diagnostic or other. *)
Lemma extract_images_skips_empty_payload :
  is_multipart (message_of_mime (multipart [empty_image_leaf])) = true
  /\ filter is_image (mime_parts (multipart [empty_image_leaf]))
     = [part_of_mime empty_image_leaf]
  /\ get_payload (part_of_mime empty_image_leaf) = Ret (Some [])
  /\ _extract_images (message_of_mime (multipart [empty_image_leaf])) = [].
Proof. repeat split. Qed.

(** C3, as the code has it. For every multipart message whose walk
    raises outside the per-image handler, the result is what the image
    parts walked so far gave, in order, followed by one diagnostic entry
    (["text/plain"], ["Image extraction failed: ..."]); nothing collected
    is discarded and the exception is not propagated. *)
Theorem extract_images_failed_walk (message : Message) (parts : list Part)
    (e : exn) :
  is_multipart message = true ->
  walk message = yield_all parts (Throw e) ->
  _extract_images message
  = flat_map image_outcome (filter is_image parts)
    ++ [mkImage (lit "text/plain")
          (lit "Image extraction failed: " ++ exn_str e)].
Proof.
  intros Hmulti Hwalk.
  unfold _extract_images. rewrite Hmulti, Hwalk, images_walk_yield_all.
  reflexivity.
Qed.

Lemma extract_images_failed_walk_witness :
  _extract_images failing_walk_message
  = flat_map image_outcome
      (filter is_image (mime_parts (multipart [image_leaf])))
    ++ [mkImage (lit "text/plain")
          (lit "Image extraction failed: " ++ exn_str recursion_error)].
Proof.
  apply (extract_images_failed_walk failing_walk_message
           (mime_parts (multipart [image_leaf])) recursion_error);
    reflexivity.
Defined.

(** C3, as stated, fails: the walk of [failing_walk_message] raises after
    an image part; the result has two entries, the image collected before
    the failure and the diagnostic. *)
Lemma extract_images_failed_walk_keeps_images :
  walk failing_walk_message
  = Yield (part_of_mime (multipart [image_leaf]))
      (Yield (part_of_mime image_leaf) (Throw recursion_error))
  /\ _extract_images failing_walk_message
     = [mkImage (lit "image/png") (lit "UE5H");
        mkImage (lit "text/plain")
          (lit "Image extraction failed: maximum recursion depth exceeded")].
Proof. split; reflexivity. Qed.

(** C9. For every image part of a multipart message whose payload decodes
    to a non-empty byte sequence, the result holds an entry with the
    part's type whose [data], decoded from base64, is exactly those
    bytes. *)
Theorem image_payload_roundtrip (message : Message) (parts : list Part)
    (fin : gen Part) (part : Part) (b : bytes) :
  is_multipart message = true ->
  walk message = yield_all parts fin ->
  In part parts ->
  is_image part = true ->
  get_payload part = Ret (Some b) ->
  b <> [] ->
  exists d : str,
    In (mkImage (get_content_type part) d) (_extract_images message)
    /\ d = latin1_decode (b64encode b)
    /\ b64decode d = Some b.
Proof.
  intros Hmulti Hwalk Hin Himage Hpayload Hne.
  exists (latin1_decode (b64encode b)). split; [|split].
  - apply extract_images_keeps; [assumption|].
    rewrite Hwalk, images_walk_yield_all. apply images_walk_keeps.
    apply in_flat_map. exists part. split.
    + apply filter_In. now split.
    + unfold image_outcome. rewrite Hpayload.
      destruct b as [|x b]; [contradiction|]. now left.
  - reflexivity.
  - apply b64decode_b64encode.
Qed.

Lemma image_payload_roundtrip_witness :
  exists d : str,
    In (mkImage (lit "image/png") d)
       (_extract_images (message_of_mime (multipart [plain_leaf; image_leaf])))
    /\ d = latin1_decode (b64encode (blit "PNG"))
    /\ b64decode d = Some (blit "PNG").
Proof.
  apply (image_payload_roundtrip
           (message_of_mime (multipart [plain_leaf; image_leaf]))
           (mime_parts (multipart [plain_leaf; image_leaf])) Stop
           (part_of_mime image_leaf) (blit "PNG"));
    try reflexivity; [right; right; now left|discriminate].
Defined.

(** ** Body decoding *)

Section BodyDecoder.

Variable codec_decode : str -> bytes -> res str.
Variable get_text : str -> res str.

Local Abbreviation bytes_decode := (bytes_decode codec_decode).
Local Abbreviation _decode_body := (_decode_body codec_decode get_text).

(** The path without a decode error: an HTML part goes through the
    markup stripper. *)
Lemma decode_body_html_stripped (part : Part) (payload : bytes)
    (body_content : str) :
  is_html part = true ->
  get_payload part = Ret (Some payload) ->
  bytes_decode (get_content_charset part (lit "utf-8")) payload
  = Ret body_content ->
  _decode_body part
  = try_except (get_text body_content) is_Exception
      (body_handlers codec_decode (Some (Some payload))).
Proof.
  intros Hhtml Hpayload Hdec. unfold _decode_body.
  rewrite Hpayload. cbv zeta. cbn [payload_decode]. rewrite Hdec.
  cbn [bind]. unfold is_html in Hhtml. now rewrite Hhtml.
Qed.

(** C4, on the code. For an HTML part whose declared-charset decode
    raises [UnicodeDecodeError] or [LookupError], [_decode_body] returns
    the Latin-1 text of the payload with only its outer whitespace
    trimmed: the markup stripper is not applied and the markup stays. *)
Theorem decode_body_fallback_keeps_markup (part : Part) (payload : bytes)
    (e : exn) :
  is_html part = true ->
  get_payload part = Ret (Some payload) ->
  bytes_decode (get_content_charset part (lit "utf-8")) payload = Raise e ->
  is_decode_error e = true ->
  _decode_body part = Ret (strip (latin1_decode payload)).
Proof.
  intros _ Hpayload Hdec Hcls. unfold _decode_body.
  rewrite Hpayload. cbv zeta. cbn [payload_decode]. rewrite Hdec.
  cbn [bind try_except is_Exception]. unfold body_handlers.
  rewrite Hcls. reflexivity.
Qed.

End BodyDecoder.

Lemma decode_body_fallback_keeps_markup_witness :
  _decode_body sample_codecs sample_get_text
    (part_of_mime html_leaf_unknown_charset)
  = Ret (strip (latin1_decode (blit "<p>Hi</p>"))).
Proof.
  apply (decode_body_fallback_keeps_markup sample_codecs sample_get_text
           (part_of_mime html_leaf_unknown_charset) (blit "<p>Hi</p>")
           (mkExn LookupError (lit "unknown encoding: x-unknown")));
    reflexivity.
Defined.

(** The same markup under a known character set and under an unknown one. *)
Lemma decode_body_html_examples :
  _decode_body sample_codecs sample_get_text (part_of_mime html_leaf)
  = Ret (lit "Hi")
  /\ _decode_body sample_codecs sample_get_text
       (part_of_mime html_leaf_unknown_charset)
     = Ret (lit "<p>Hi</p>").
Proof. split; reflexivity. Qed.

(** ** Message normalization *)

Section Normalizer.

Variable decode_encoded_words : str -> res (list segment).
Variable codec_decode : str -> bytes -> res str.
Variable get_text : str -> res str.
Variable parsedate_to_datetime : str -> res datetime.

Local Abbreviation process_email :=
  (process_email decode_encoded_words codec_decode get_text
     parsedate_to_datetime).

(** C1, on the code. When the [Date] header is present, not empty, and
    the date parser raises on it, [process_email] raises that exception:
    no record is returned. *)
Theorem process_email_unparsable_date_raises (message : Message)
    (d : str) (e : exn) :
  getitem message (lit "date") = Some d ->
  str_truthy d = true ->
  parsedate_to_datetime d = Raise e ->
  process_email message = Raise e.
Proof.
  intros Hdate Htruthy Hparse. unfold process_email.
  now rewrite Hdate, Htruthy, Hparse.
Qed.

End Normalizer.

Lemma process_email_unparsable_date_raises_witness :
  sample_process_email (message_of_mime (dated_message "not a date"))
  = Raise (mkExn ValueError (lit "Invalid date value or format")).
Proof.
  apply (process_email_unparsable_date_raises sample_encoded_words
           sample_codecs sample_get_text sample_parsedate
           (message_of_mime (dated_message "not a date"))
           (lit "not a date")); reflexivity.
Defined.

(** The same message with a date the parser accepts, and with the
    [-0000] offset, which gives an offset-naive timestamp. *)
Lemma process_email_dated_examples :
  sample_process_email
    (message_of_mime (dated_message "Mon, 01 Jan 2024 00:00:00 +0000"))
  = Ret aware_record
  /\ sample_process_email
       (message_of_mime (dated_message "Tue, 02 Jan 2024 00:00:00 -0000"))
     = Ret naive_record.
Proof. split; reflexivity. Qed.

(** ** Ordering *)

Section SortedFacts.

Variables (A K : Type) (key : A -> K) (lt : K -> K -> res bool).

Hypothesis lt_asym : forall a b, lt a b = Ret true -> lt b a = Ret false.

Local Abbreviation insert := (insert key lt).
Local Abbreviation sorted := (sorted key lt).
Local Abbreviation ascending := (ascending key lt).

Lemma ascending_tail (x : A) (l : list A) :
  ascending (x :: l) -> ascending l.
Proof. inversion 1; subst; [constructor|assumption]. Qed.

Lemma insert_ascending (x : A) (l r : list A) :
  ascending l -> insert x l = Ret r -> ascending r.
Proof.
  revert r; induction l as [|y l IH]; intros r Hasc Hins.
  - injection Hins as <-. constructor.
  - cbn [insert] in Hins.
    destruct (lt (key y) (key x)) as [[|]|e] eqn:Hlt; cbn [bind] in Hins;
      try discriminate.
    + destruct (insert x l) as [r'|e] eqn:Hr'; cbn [bind] in Hins;
        [|discriminate].
      injection Hins as <-.
      specialize (IH r' (ascending_tail _ _ Hasc) eq_refl).
      destruct l as [|z l].
      * injection Hr' as <-. constructor; [now apply lt_asym|constructor].
      * cbn [insert] in Hr'.
        destruct (lt (key z) (key x)) as [[|]|e] eqn:Hzx;
          cbn [bind] in Hr'; try discriminate.
        -- destruct (insert x l) as [r''|e]; cbn [bind] in Hr';
             [|discriminate].
           injection Hr' as <-. constructor; [|assumption].
           now inversion Hasc.
        -- injection Hr' as <-. constructor; [now apply lt_asym|assumption].
    + injection Hins as <-. now constructor.
Qed.

Lemma sorted_ascending (l s : list A) : sorted l = Ret s -> ascending s.
Proof.
  revert s; induction l as [|x l IH]; intros s Hs.
  - injection Hs as <-. constructor.
  - cbn [sorted] in Hs.
    destruct (sorted l) as [s'|e]; cbn [bind] in Hs; [|discriminate].
    exact (insert_ascending x s' s (IH s' eq_refl) Hs).
Qed.

(** Sorting a sequence that is in order returns it as it is. *)
Lemma sorted_of_ascending (s : list A) : ascending s -> sorted s = Ret s.
Proof.
  induction 1 as [|x|x y l Hlt _ IH]; try reflexivity.
  change (sorted (x :: y :: l)) with (r <- sorted (y :: l) ;; insert x r).
  rewrite IH. cbn [bind insert]. now rewrite Hlt.
Qed.

Lemma insert_Forall (P : A -> Prop) (x : A) (l r : list A) :
  P x -> Forall P l -> insert x l = Ret r -> Forall P r.
Proof.
  intros Hx. revert r; induction l as [|y l IH]; intros r Hl Hins.
  - injection Hins as <-. now constructor.
  - cbn [insert] in Hins.
    destruct (lt (key y) (key x)) as [[|]|e]; cbn [bind] in Hins;
      try discriminate.
    + destruct (insert x l) as [r'|e]; cbn [bind] in Hins; [|discriminate].
      injection Hins as <-. inversion Hl; subst. constructor; auto.
    + injection Hins as <-. now constructor.
Qed.

Lemma sorted_Forall (P : A -> Prop) (l s : list A) :
  Forall P l -> sorted l = Ret s -> Forall P s.
Proof.
  revert s; induction l as [|x l IH]; intros s Hl Hs.
  - injection Hs as <-. constructor.
  - cbn [sorted] in Hs. apply Forall_cons_iff in Hl as [Hx Hl].
    destruct (sorted l) as [s'|e]; cbn [bind] in Hs; [|discriminate].
    exact (insert_Forall P x s' s Hx (IH s' Hl eq_refl) Hs).
Qed.

End SortedFacts.

Lemma filter_all {A : Type} (f : A -> bool) (l : list A) :
  Forall (fun x => f x = true) l -> filter f l = l.
Proof.
  induction 1 as [|x l Hx _ IH]; [reflexivity|].
  cbn [filter]. now rewrite Hx, IH.
Qed.

Lemma filter_none {A : Type} (f : A -> bool) (l : list A) :
  Forall (fun x => f x = false) l -> filter f l = [].
Proof.
  induction 1 as [|x l Hx _ IH]; [reflexivity|].
  cbn [filter]. now rewrite Hx.
Qed.

Lemma filter_Forall {A : Type} (f : A -> bool) (l : list A) :
  Forall (fun x => f x = true) (filter f l).
Proof. apply Forall_forall. intros x Hx. now apply filter_In in Hx. Qed.

Lemma key_lt_asym (a b : option datetime) :
  key_lt a b = Ret true -> key_lt b a = Ret false.
Proof.
  destruct a as [[x|x ox]|], b as [[y|y oy]|]; cbn; try discriminate;
    intros [= H]; f_equal; lia.
Qed.

Lemma order_again (emails l : list EmailData) :
  order emails = Ret l -> order l = Ret l.
Proof.
  unfold order.
  destruct (sorted date key_lt (filter has_date emails)) as [s|e] eqn:Hs;
    cbn [bind]; [|discriminate].
  intros [= <-].
  pose proof (sorted_Forall _ _ date key_lt _ _ _ (filter_Forall has_date emails) Hs)
    as Hdated.
  assert (Hundated : Forall (fun x => has_date x = false)
                       (filter (fun e => negb (has_date e)) emails)).
  { apply Forall_forall. intros x Hx. apply filter_In in Hx as [_ Hx].
    now apply negb_true_iff in Hx. }
  rewrite !filter_app.
  rewrite (filter_all _ _ Hdated), (filter_none _ _ Hundated), app_nil_r.
  rewrite (sorted_of_ascending _ _ date key_lt s
             (sorted_ascending _ _ date key_lt key_lt_asym _ _ Hs)).
  cbn [bind]. f_equal. f_equal.
  rewrite (filter_none (fun e => negb (has_date e)) s).
  - apply filter_all. revert Hundated. apply Forall_impl.
    intros x ->. reflexivity.
  - revert Hdated. apply Forall_impl. intros x ->. reflexivity.
Qed.

(** C8. Ordering an ordered sequence changes nothing: applying [order]
    twice gives what applying it once gives (when the first application
    raises, so does the composition, with the same exception). *)
Theorem order_idempotent (emails : list EmailData) :
  (l <- order emails ;; order l) = order emails.
Proof.
  destruct (order emails) as [l|e] eqn:Horder; cbn [bind]; [|reflexivity].
  exact (order_again emails l Horder).
Qed.

(** *** Sequences whose timestamps compare *)

Section SortByFacts.

Variables (A K : Type) (key : A -> K) (lt : K -> K -> res bool).
Variable measure : A -> Z.

Local Abbreviation insert := (insert key lt).
Local Abbreviation sorted := (sorted key lt).
Local Abbreviation insert_by := (insert_by measure).
Local Abbreviation sort_by := (sort_by measure).

Lemma insert_by_perm (x : A) (l : list A) :
  Permutation (insert_by x l) (x :: l).
Proof.
  induction l as [|y l IH]; cbn [insert_by]; [reflexivity|].
  destruct (measure y <? measure x)%Z; [|reflexivity].
  rewrite IH. apply perm_swap.
Qed.

Lemma sort_by_perm (l : list A) : Permutation (sort_by l) l.
Proof.
  induction l as [|x l IH]; cbn [sort_by]; [reflexivity|].
  now rewrite insert_by_perm, IH.
Qed.

Lemma insert_by_sorted (x : A) (l : list A) :
  StronglySorted (fun a b => (measure a <= measure b)%Z) l ->
  StronglySorted (fun a b => (measure a <= measure b)%Z) (insert_by x l).
Proof.
  induction 1 as [|y l Hl IH Hy]; cbn [insert_by].
  - repeat constructor.
  - destruct (measure y <? measure x)%Z eqn:Hlt.
    + constructor; [assumption|].
      apply (Permutation_Forall (Permutation_sym (insert_by_perm x l))).
      constructor; [lia|assumption].
    + constructor; [now constructor|].
      constructor; [lia|].
      revert Hy. apply Forall_impl. intros z Hz. lia.
Qed.

Lemma sort_by_sorted (l : list A) :
  StronglySorted (fun a b => (measure a <= measure b)%Z) (sort_by l).
Proof.
  induction l as [|x l IH]; cbn [sort_by]; [constructor|].
  now apply insert_by_sorted.
Qed.

(** Stability: the elements of one measure keep their order. *)
Lemma insert_by_stable (t : Z) (x : A) (l : list A) :
  filter (fun e => (measure e =? t)%Z) (insert_by x l)
  = filter (fun e => (measure e =? t)%Z) (x :: l).
Proof.
  induction l as [|y l IH]; cbn [insert_by]; [reflexivity|].
  destruct (measure y <? measure x)%Z eqn:Hlt; [|reflexivity].
  cbn [filter] in *. rewrite IH.
  destruct (measure y =? t)%Z eqn:Hy, (measure x =? t)%Z eqn:Hx;
    try reflexivity.
  lia.
Qed.

Lemma sort_by_stable (t : Z) (l : list A) :
  filter (fun e => (measure e =? t)%Z) (sort_by l)
  = filter (fun e => (measure e =? t)%Z) l.
Proof.
  induction l as [|x l IH]; cbn [sort_by]; [reflexivity|].
  rewrite insert_by_stable. cbn [filter]. now rewrite IH.
Qed.

(** When [<] on the keys of a sequence is [<] on their measures, [sorted]
    returns, and returns the stable sort by measure. *)
Lemma insert_pure (x : A) (l : list A) :
  (forall y, In y l -> lt (key y) (key x) = Ret (measure y <? measure x)%Z) ->
  insert x l = Ret (insert_by x l).
Proof.
  induction l as [|y l IH]; intros Hlt; [reflexivity|].
  cbn [insert insert_by].
  rewrite (Hlt y (or_introl eq_refl)). cbn [bind].
  destruct (measure y <? measure x)%Z; [|reflexivity].
  rewrite IH; [reflexivity|]. intros z Hz. apply Hlt. now right.
Qed.

Lemma sorted_pure (l : list A) :
  (forall a b, In a l -> In b l ->
     lt (key a) (key b) = Ret (measure a <? measure b)%Z) ->
  sorted l = Ret (sort_by l).
Proof.
  induction l as [|x l IH]; intros Hlt; [reflexivity|].
  cbn [sorted sort_by].
  rewrite IH by (intros a b Ha Hb; apply Hlt; now right).
  cbn [bind]. apply insert_pure. intros y Hy. apply Hlt; [right|now left].
  exact (Permutation_in _ (sort_by_perm l) Hy).
Qed.

End SortByFacts.

Lemma key_lt_comparable (emails : list EmailData) (a b : EmailData) :
  comparable emails ->
  In a (filter has_date emails) -> In b (filter has_date emails) ->
  key_lt (date a) (date b) = Ret (record_ticks a <? record_ticks b)%Z.
Proof.
  intros Hcmp Ha Hb.
  apply filter_In in Ha as [Ha Hda]. apply filter_In in Hb as [Hb Hdb].
  unfold has_date, record_ticks in *.
  destruct (date a) as [da|] eqn:Ea; [|discriminate].
  destruct (date b) as [db|] eqn:Eb; [|discriminate].
  destruct Hcmp as [Hall|Hall];
    pose proof (Hall a da Ha Ea) as Ka; pose proof (Hall b db Hb Eb) as Kb;
    destruct da, db; try discriminate; reflexivity.
Qed.

(** X18. On a sequence whose timestamps are all offset-aware or all
    offset-naive the ordering stage returns: first the dated records,
    stably sorted by timestamp (a permutation of the dated records in
    ascending order, records of equal time in their original order), then
    the undated records in their original order. *)
Lemma order_comparable (emails : list EmailData) :
  comparable emails ->
  exists dated : list EmailData,
    order emails
    = Ret (dated ++ filter (fun e => negb (has_date e)) emails)
    /\ Permutation dated (filter has_date emails)
    /\ StronglySorted (fun a b => (record_ticks a <= record_ticks b)%Z) dated
    /\ (forall t : Z,
          filter (fun e => (record_ticks e =? t)%Z) dated
          = filter (fun e => (record_ticks e =? t)%Z)
              (filter has_date emails)).
Proof.
  intros Hcmp. exists (sort_by record_ticks (filter has_date emails)).
  split; [|split; [|split]].
  - unfold order.
    rewrite (sorted_pure _ _ date key_lt record_ticks);
      [reflexivity|].
    intros a b Ha Hb. now apply (key_lt_comparable emails).
  - apply sort_by_perm.
  - apply sort_by_sorted.
  - intros t. apply sort_by_stable.
Qed.

(** C7, on the code. A sequence that holds an offset-aware and an
    offset-naive timestamp is not ordered: the comparison of the two sort
    keys raises [TypeError], and so does the ordering stage. *)
Theorem order_mixed_timestamps_raises :
  order [aware_record; naive_record]
  = Raise (mkExn TypeError
             (lit "can't compare offset-naive and offset-aware datetimes")).
Proof. reflexivity. Qed.

(** ** Scenarios of the specification *)

(** X1. A header that holds no encoded word comes back unchanged, whatever
    the codecs are. *)
Lemma decode_mime_literal (decode_encoded_words : str -> res (list segment))
    (codec_decode : str -> bytes -> res str) (text : str) :
  has_encoded_word text = false ->
  decode_mime decode_encoded_words codec_decode (Some text) = Ret text.
Proof.
  intros Hplain. unfold decode_mime, decode_header, or_empty, str_or.
  destruct text as [|c text]; [reflexivity|].
  cbn [str_truthy]. now rewrite Hplain.
Qed.

(** An encoded sender, a plain body and no date. *)
Lemma process_email_undated_scenario :
  sample_process_email (message_of_mime undated_message)
  = Ret (mkEmail None (lit "John Doe") (lit "Hi") (lit "Hello") []).
Proof. reflexivity. Qed.

(** No image part, no entry; and a message that is not multipart gives no
    entry even when it is an image itself. *)
Lemma extract_images_no_image :
  _extract_images (message_of_mime (multipart [plain_leaf; html_leaf])) = []
  /\ _extract_images (message_of_mime image_leaf) = [].
Proof. split; reflexivity. Qed.

(** A dated record and an undated one: the dated one comes first. *)
Lemma order_dated_first :
  order [mkEmail None (lit "John Doe") (lit "Hi") (lit "Hello") [];
         aware_record]
  = Ret [aware_record;
         mkEmail None (lit "John Doe") (lit "Hi") (lit "Hello") []].
Proof. reflexivity. Qed.

(** * Further properties of the code *)

(** ** [decode_mime] *)

Lemma mapM_raise {A B : Type} (f : A -> res B) (l : list A) (e : exn) :
  mapM f l = Raise e -> exists a, In a l /\ f a = Raise e.
Proof.
  induction l as [|a l IH]; cbn [mapM]; [discriminate|].
  destruct (f a) as [b|e'] eqn:Hfa; cbn [bind].
  - destruct (mapM f l) as [bs|e'']; cbn [bind]; [discriminate|].
    intros [= ->]. destruct (IH eq_refl) as (a' & Hin & Ha').
    exists a'. split; [now right|assumption].
  - intros [= ->]. exists a. split; [now left|assumption].
Qed.

Lemma decode_mime_literal_witness :
  sample_decode_mime (Some (lit "Weekly report")) = Ret (lit "Weekly report").
Proof.
  apply (decode_mime_literal sample_encoded_words sample_codecs
           (lit "Weekly report")).
  reflexivity.
Defined.

(** X2. An exception that leaves [decode_mime] is the one [decode_header]
    raised, or the one the declared-charset decode of a byte segment
    raised, of a class other than [UnicodeDecodeError] and [LookupError];
    nothing else escapes. *)
Theorem decode_mime_raise_origin
    (decode_encoded_words : str -> res (list segment))
    (codec_decode : str -> bytes -> res str)
    (text : option str) (e : exn) :
  decode_mime decode_encoded_words codec_decode text = Raise e ->
  decode_header decode_encoded_words (or_empty text) = Raise e
  \/ exists (segments : list segment) (b : bytes) (encoding : option str),
       decode_header decode_encoded_words (or_empty text) = Ret segments
       /\ In (Bytes b, encoding) segments
       /\ bytes_decode codec_decode (or_utf8 encoding) b = Raise e
       /\ is_decode_error e = false.
Proof.
  unfold decode_mime.
  destruct (decode_header decode_encoded_words (or_empty text))
    as [segments|e'] eqn:Hhdr; cbn [bind]; [|intros [= ->]; now left].
  destruct (mapM (decode_segment codec_decode) segments) as [decoded|e']
    eqn:Hmap; cbn [bind]; [discriminate|].
  intros [= ->]. right.
  destruct (mapM_raise _ _ _ Hmap) as ([[b|s] encoding] & Hin & Hseg);
    [|discriminate].
  exists segments, b, encoding. repeat split; try assumption.
  - cbn [decode_segment] in Hseg. unfold try_except in Hseg.
    destruct (bytes_decode codec_decode (or_utf8 encoding) b) as [s|e'];
      [discriminate|].
    destruct (is_decode_error e'); [discriminate|]. exact Hseg.
  - cbn [decode_segment] in Hseg. unfold try_except in Hseg.
    destruct (bytes_decode codec_decode (or_utf8 encoding) b) as [s|e'];
      [discriminate|].
    destruct (is_decode_error e') eqn:Hcls; [discriminate|].
    now injection Hseg as <-.
Qed.

Lemma decode_mime_raise_origin_witness :
  (decode_header sample_encoded_words
        (or_empty (Some (lit "=?undefined?q?abc?=")))
      = Raise (mkExn UnicodeError (lit "undefined encoding"))
      \/ exists (segments : list segment) (b : bytes)
                (encoding : option str),
           decode_header sample_encoded_words
             (or_empty (Some (lit "=?undefined?q?abc?="))) = Ret segments
           /\ In (Bytes b, encoding) segments
           /\ bytes_decode sample_codecs (or_utf8 encoding) b
              = Raise (mkExn UnicodeError (lit "undefined encoding"))
           /\ is_decode_error (mkExn UnicodeError (lit "undefined encoding"))
              = false).
Proof.
  apply (decode_mime_raise_origin sample_encoded_words sample_codecs
           (Some (lit "=?undefined?q?abc?="))
           (mkExn UnicodeError (lit "undefined encoding"))).
  reflexivity.
Defined.

(** ** [_extract_body_part] *)

Lemma body_walk_sound (g : gen Part) (h c f : option Part) :
  body_walk g h = Ret (c, f) ->
  (forall p, c = Some p -> In p (gen_items g) /\ is_plain p = true)
  /\ (f = h \/ exists q, f = Some q /\ In q (gen_items g)
                         /\ is_html q = true).
Proof.
  revert h; induction g as [|p rest IH|e]; intros h; cbn [body_walk gen_items].
  - intros [= <- <-]. split; [discriminate|now left].
  - fold (is_plain p). fold (is_html p).
    destruct (is_plain p) eqn:Hplain.
    + intros [= <- <-]. split; [|now left].
      intros p' [= <-]. split; [now left|assumption].
    + destruct (is_html p) eqn:Hhtml; intros Hwalk;
        destruct (IH _ Hwalk) as [Hc Hf]; split.
      * intros p' Hp'. destruct (Hc p' Hp') as [Hin Hpl].
        split; [now right|assumption].
      * right. destruct Hf as [->|(q & -> & Hin & Hq)].
        -- exists p. repeat split; [now left|assumption].
        -- exists q. repeat split; [now right|assumption].
      * intros p' Hp'. destruct (Hc p' Hp') as [Hin Hpl].
        split; [now right|assumption].
      * destruct Hf as [->|(q & -> & Hin & Hq)]; [now left|].
        right. exists q. repeat split; [now right|assumption].
  - discriminate.
Qed.

Lemma part_or_cases (c f : option Part) (p : Part) :
  part_or c f = Some p -> c = Some p \/ f = Some p.
Proof.
  unfold part_or. destruct c as [p'|]; [|now right].
  destruct (part_truthy p'); [now left|now right].
Qed.

(** X3. Whatever message is given, the part that body selection hands on
    (the candidate, or else the fallback) has content type [text/plain] or
    [text/html]; no part of another type is ever decoded as the body. *)
Theorem selected_part_is_text (message : Message) (c f : option Part)
    (p : Part) :
  _extract_body_part message = Ret (c, f) ->
  part_or c f = Some p ->
  is_plain p = true \/ is_html p = true.
Proof.
  unfold _extract_body_part. intros Hsel Hor.
  destruct (is_multipart message).
  - destruct (body_walk_sound _ _ _ _ Hsel) as [Hc Hf].
    destruct (part_or_cases _ _ _ Hor) as [->| ->].
    + left. now apply (Hc p).
    + right. destruct Hf as [Hf|(q & [= <-] & _ & Hq)];
        [discriminate|assumption].
  - fold (is_plain (as_part message)) in Hsel.
    fold (is_html (as_part message)) in Hsel.
    destruct (is_plain (as_part message)) eqn:Hplain;
      [|destruct (is_html (as_part message)) eqn:Hhtml];
      cbn [orb] in Hsel; injection Hsel as <- <-;
      destruct (part_or_cases _ _ _ Hor) as [[= <-]|[=]].
    + now left.
    + now right.
Qed.

Lemma selected_part_is_text_witness :
  is_plain (part_of_mime plain_leaf) = true
  \/ is_html (part_of_mime plain_leaf) = true.
Proof.
  apply (selected_part_is_text
           (message_of_mime (multipart [html_leaf; plain_leaf; html_leaf]))
           (Some (part_of_mime plain_leaf)) (Some (part_of_mime html_leaf)));
    reflexivity.
Defined.

(** X4. The walk of a multipart message is consumed only up to the first
    plain-text part: the result is that part and the last HTML part seen
    before it, whatever the walk would have yielded or raised after it. *)
Theorem extract_body_part_stops_at_plain (message : Message)
    (parts : list Part) (p : Part) (rest : gen Part) :
  is_multipart message = true ->
  walk message = yield_all parts (Yield p rest) ->
  find is_plain parts = None ->
  is_plain p = true ->
  _extract_body_part message = Ret (Some p, last_html parts).
Proof.
  intros Hmulti Hwalk Hnone Hplain. unfold _extract_body_part.
  rewrite Hmulti, Hwalk, body_walk_yield_all, Hnone.
  cbn [body_walk]. fold (is_plain p). rewrite Hplain.
  now destruct (last_html parts).
Qed.

Lemma extract_body_part_stops_at_plain_witness :
  _extract_body_part plain_then_failing_walk_message
  = Ret (Some (part_of_mime plain_leaf),
         last_html [part_of_mime (multipart [html_leaf; plain_leaf]);
                    part_of_mime html_leaf]).
Proof.
  apply (extract_body_part_stops_at_plain plain_then_failing_walk_message
           [part_of_mime (multipart [html_leaf; plain_leaf]);
            part_of_mime html_leaf]
           (part_of_mime plain_leaf) (Throw recursion_error));
    reflexivity.
Defined.

(** X5. Body selection has no handler of its own: when the walk of a
    multipart message raises before a plain-text part was seen, the
    exception leaves [_extract_body_part]. *)
Theorem extract_body_part_walk_raises (message : Message)
    (parts : list Part) (e : exn) :
  is_multipart message = true ->
  walk message = yield_all parts (Throw e) ->
  find is_plain parts = None ->
  _extract_body_part message = Raise e.
Proof.
  intros Hmulti Hwalk Hnone. unfold _extract_body_part.
  now rewrite Hmulti, Hwalk, body_walk_yield_all, Hnone.
Qed.

Lemma extract_body_part_walk_raises_witness :
  _extract_body_part failing_walk_message = Raise recursion_error.
Proof.
  apply (extract_body_part_walk_raises failing_walk_message
           (mime_parts (multipart [image_leaf])) recursion_error);
    reflexivity.
Defined.

(** ** [_decode_body] *)

Lemma lstrip_not_space (s : str) : starts_with_space (lstrip s) = false.
Proof.
  induction s as [|c s IH]; [reflexivity|].
  cbn [lstrip]. destruct (isspace c) eqn:Hc; [assumption|].
  cbn [starts_with_space]. assumption.
Qed.

Lemma lstrip_snoc (s : str) (c : codepoint) :
  isspace c = false -> lstrip (s ++ [c]) = lstrip s ++ [c].
Proof.
  intros Hc. induction s as [|x s IH]; cbn [app lstrip].
  - now rewrite Hc.
  - destruct (isspace x); [assumption|reflexivity].
Qed.

Lemma rstrip_keeps_head (s : str) :
  starts_with_space s = false -> starts_with_space (rstrip s) = false.
Proof.
  destruct s as [|c s]; [reflexivity|]. cbn [starts_with_space]. intros Hc.
  unfold rstrip. cbn [rev]. rewrite (lstrip_snoc _ _ Hc), rev_app_distr.
  exact Hc.
Qed.

(** [strip] leaves no whitespace at either end. *)
Lemma strip_trimmed (s : str) : trimmed (strip s) = true.
Proof.
  unfold trimmed, strip.
  rewrite (rstrip_keeps_head _ (lstrip_not_space s)).
  unfold rstrip. now rewrite rev_involutive, lstrip_not_space.
Qed.

Lemma bracketed_trimmed (open inner : str) :
  trimmed ((91%N :: open) ++ inner ++ [93%N]) = true.
Proof.
  unfold trimmed. cbn [app starts_with_space].
  rewrite app_comm_cons, app_assoc, rev_app_distr. reflexivity.
Qed.

Section BodyDecoderFacts.

Variable codec_decode : str -> bytes -> res str.
Variable get_text : str -> res str.

Local Abbreviation bytes_decode := (bytes_decode codec_decode).
Local Abbreviation _decode_body := (_decode_body codec_decode get_text).

Lemma decode_body_total (part : Part) (payload : option bytes) :
  get_payload part = Ret payload ->
  exists s : str,
    _decode_body part = Ret s
    /\ (payload = None ->
        s = lit "[Body decode error: 'NoneType' object has no attribute 'decode']").
Proof.
  intros Hpayload. unfold _decode_body. rewrite Hpayload. cbv zeta.
  destruct payload as [b|]; cbn [payload_decode].
  - destruct (bytes_decode (get_content_charset part (lit "utf-8")) b)
      as [content|e]; cbn [bind try_except is_Exception].
    + destruct (str_eqb (get_content_type part) (lit "text/html")).
      * destruct (get_text content) as [s|e];
          cbn [try_except is_Exception].
        -- exists s. split; [reflexivity|discriminate].
        -- unfold body_handlers. destruct (is_decode_error e);
             cbn [payload_decode bind];
             eexists; (split; [reflexivity|discriminate]).
      * eexists. split; [reflexivity|discriminate].
    + unfold body_handlers. destruct (is_decode_error e);
        cbn [payload_decode bind];
        eexists; (split; [reflexivity|discriminate]).
  - cbn [bind try_except is_Exception]. eexists. split; reflexivity.
Qed.

(** X6. [_decode_body] returns a text, and does not raise, whenever the
    payload decode of the part returns, whatever the codecs and the markup
    stripper do; for a part without payload ([None], as a multipart part
    has) the text is the placeholder of the [AttributeError]. *)
Theorem decode_body_returns (part : Part) (payload : option bytes) :
  get_payload part = Ret payload ->
  exists s : str,
    _decode_body part = Ret s
    /\ (payload = None ->
        s = lit "[Body decode error: 'NoneType' object has no attribute 'decode']").
Proof. exact (decode_body_total part payload). Qed.

(** X7. [_decode_body] raises in one situation only: the payload decode
    itself raised [UnicodeDecodeError] or [LookupError]. The first handler
    then reads the local [payload], which was never bound, and the
    exception that leaves is an [UnboundLocalError]. *)
Theorem decode_body_raise_origin (part : Part) (raised : exn) :
  _decode_body part = Raise raised ->
  exists e : exn,
    get_payload part = Raise e
    /\ is_decode_error e = true
    /\ raised = mkExn UnboundLocalError
                  (lit "cannot access local variable 'payload'").
Proof.
  destruct (get_payload part) as [payload|e] eqn:Hpayload.
  - destruct (decode_body_total part payload Hpayload) as (s & -> & _).
    discriminate.
  - unfold _decode_body. rewrite Hpayload. unfold body_handlers.
    destruct (is_decode_error e) eqn:Hcls; [|discriminate].
    intros [= <-]. now exists e.
Qed.

(** X8. The text [_decode_body] returns for a part that is not HTML never
    starts or ends with whitespace, on every path: the decoded text and
    the Latin-1 retry are stripped, and the placeholder is bracketed. *)
Theorem decode_body_trimmed (part : Part) (s : str) :
  is_html part = false ->
  _decode_body part = Ret s ->
  trimmed s = true.
Proof.
  unfold is_html, _decode_body. intros Hhtml.
  destruct (get_payload part) as [[b|]|e]; cbv zeta; cbn [payload_decode].
  - destruct (bytes_decode (get_content_charset part (lit "utf-8")) b)
      as [content|e]; cbn [bind try_except is_Exception].
    + rewrite Hhtml. intros [= <-]. apply strip_trimmed.
    + unfold body_handlers. destruct (is_decode_error e);
        cbn [payload_decode bind]; intros [= <-].
      * apply strip_trimmed.
      * exact (bracketed_trimmed (lit "Body decode error: ") (exn_str e)).
  - cbn [bind try_except is_Exception]. intros [= <-]. reflexivity.
  - unfold body_handlers. destruct (is_decode_error e); [discriminate|].
    intros [= <-].
    exact (bracketed_trimmed (lit "Body decode error: ") (exn_str e)).
Qed.

End BodyDecoderFacts.

Lemma decode_body_returns_witness :
  exists s : str,
    _decode_body sample_codecs sample_get_text
      (part_of_mime (multipart [plain_leaf])) = Ret s
    /\ (mime_payload (multipart [plain_leaf]) = None ->
        s = lit "[Body decode error: 'NoneType' object has no attribute 'decode']").
Proof.
  apply (decode_body_returns sample_codecs sample_get_text
           (part_of_mime (multipart [plain_leaf]))
           (mime_payload (multipart [plain_leaf]))).
  reflexivity.
Defined.

Lemma decode_body_raise_origin_witness :
  exists e : exn,
    get_payload lookup_error_part = Raise e
    /\ is_decode_error e = true
    /\ mkExn UnboundLocalError (lit "cannot access local variable 'payload'")
       = mkExn UnboundLocalError
           (lit "cannot access local variable 'payload'").
Proof.
  apply (decode_body_raise_origin sample_codecs sample_get_text
           lookup_error_part
           (mkExn UnboundLocalError
              (lit "cannot access local variable 'payload'"))).
  reflexivity.
Defined.

Lemma decode_body_trimmed_witness :
  trimmed (lit "Hello") = true.
Proof.
  apply (decode_body_trimmed sample_codecs sample_get_text
           (part_of_mime plain_leaf) (lit "Hello")); reflexivity.
Defined.

(** ** [_extract_images] *)

Lemma images_walk_items (g : gen Part) (images : list ImagePayload) :
  fst (images_walk g images)
  = images ++ flat_map image_outcome (filter is_image (gen_items g)).
Proof.
  revert images; induction g as [|p rest IH|e]; intros images;
    cbn [images_walk gen_items filter flat_map fst];
    try now rewrite app_nil_r.
  fold (is_image p). destruct (is_image p); rewrite IH; [|reflexivity].
  cbn [flat_map]. now rewrite image_entry_outcome, app_assoc.
Qed.

Lemma extract_images_shape (message : Message) :
  exists tail : list ImagePayload,
    _extract_images message
    = (if is_multipart message
       then flat_map image_outcome
              (filter is_image (gen_items (walk message)))
       else []) ++ tail
    /\ (tail = [] \/ exists e, tail = [extraction_failed e]).
Proof.
  unfold _extract_images. destruct (is_multipart message).
  - pose proof (images_walk_items (walk message) []) as Hitems.
    destruct (images_walk (walk message) []) as [images [e|]];
      cbn [fst app] in Hitems; subst images.
    + exists [extraction_failed e]. split; [reflexivity|right; now exists e].
    + exists []. split; [now rewrite app_nil_r|now left].
  - exists []. split; [reflexivity|now left].
Qed.

(** X9. The result never has more entries than image parts were walked,
    plus one for a failed walk: an image part gives at most one entry and
    a part of another type gives none. *)
Theorem extract_images_length_bound (message : Message) :
  List.length (_extract_images message)
  <= List.length (filter is_image (gen_items (walk message))) + 1.
Proof.
  destruct (extract_images_shape message) as (tail & -> & Htail).
  rewrite length_app.
  assert (Hflat : forall parts,
             List.length (flat_map image_outcome parts)
             <= List.length parts).
  { induction parts as [|p parts IH]; [apply le_n|].
    cbn [flat_map]. rewrite length_app, image_outcome_length.
    cbn [List.length]. destruct (payload_empty p); lia. }
  assert (Hone : List.length tail <= 1).
  { destruct Htail as [->|(e & ->)]; cbn; lia. }
  destruct (is_multipart message); [|cbn [List.length]; lia].
  specialize (Hflat (filter is_image (gen_items (walk message)))). lia.
Qed.

(** X10. Every entry of the result is accounted for: it is the
    diagnostic of a failed walk, or it stems from an image part of the
    walk, as the diagnostic of its failed payload decode or as its type
    with the base64 text of its non-empty payload. No entry is made for a
    part whose main type is not [image]. *)
Theorem extract_images_entry_origin (message : Message) (x : ImagePayload) :
  In x (_extract_images message) ->
  (exists e, x = extraction_failed e)
  \/ exists part,
       In part (gen_items (walk message)) /\ is_image part = true
       /\ ((exists e, get_payload part = Raise e /\ x = image_error e)
           \/ exists b, get_payload part = Ret (Some b) /\ b <> []
                        /\ x = mkImage (get_content_type part)
                                 (latin1_decode (b64encode b))).
Proof.
  destruct (extract_images_shape message) as (tail & -> & Htail).
  intros Hin. apply in_app_or in Hin as [Hin|Hin].
  - right. destruct (is_multipart message); [|contradiction].
    apply in_flat_map in Hin as (part & Hpart & Hx).
    apply filter_In in Hpart as [Hpart Himage].
    exists part. split; [assumption|split; [assumption|]].
    unfold image_outcome in Hx.
    destruct (get_payload part) as [[[|c b]|]|e]; try contradiction.
    + right. exists (c :: b). destruct Hx as [<-|[]].
      repeat split. discriminate.
    + left. exists e. destruct Hx as [<-|[]]. now split.
  - left. destruct Htail as [->|(e & ->)]; [contradiction|].
    destruct Hin as [<-|[]]. now exists e.
Qed.

Lemma extract_images_entry_origin_witness :
  (exists e, mkImage (lit "image/png") (lit "UE5H") = extraction_failed e)
  \/ exists part,
       In part (gen_items (walk failing_walk_message))
       /\ is_image part = true
       /\ ((exists e, get_payload part = Raise e
                      /\ mkImage (lit "image/png") (lit "UE5H")
                         = image_error e)
           \/ exists b, get_payload part = Ret (Some b) /\ b <> []
                        /\ mkImage (lit "image/png") (lit "UE5H")
                           = mkImage (get_content_type part)
                               (latin1_decode (b64encode b))).
Proof.
  apply (extract_images_entry_origin failing_walk_message
           (mkImage (lit "image/png") (lit "UE5H"))).
  left. reflexivity.
Defined.

Lemma b64encode_length (b : bytes) :
  List.length (b64encode b) = 4 * ((List.length b + 2) / 3).
Proof.
  induction b as [|x|x y|x y z rest IH] using list_ind3; try reflexivity.
  cbn [b64encode]. cbv zeta. cbn [List.length]. rewrite IH.
  replace (S (S (S (List.length rest))) + 2)
    with (List.length rest + 2 + 1 * 3) by lia.
  rewrite Nat.div_add by discriminate. lia.
Qed.

Lemma b64encode_text (b : bytes) :
  forallb is_b64_text (latin1_decode (b64encode b)) = true.
Proof.
  assert (Hchar : forall s, (s < 64)%N ->
                            is_b64_text (Byte.to_N (b64_char s)) = true).
  { intros s Hs. unfold is_b64_text.
    now destruct (b64_char_digit s Hs) as (-> & _ & _). }
  induction b as [|x|x y|x y z rest IH] using list_ind3.
  - reflexivity.
  - pose proof (Byte.to_N_bounded x) as Hx.
    cbn [b64encode]. cbv zeta. cbn [latin1_decode map forallb].
    rewrite !Hchar by byte_arith. reflexivity.
  - pose proof (Byte.to_N_bounded x) as Hx.
    pose proof (Byte.to_N_bounded y) as Hy.
    cbn [b64encode]. cbv zeta. cbn [latin1_decode map forallb].
    rewrite !Hchar by byte_arith. reflexivity.
  - pose proof (Byte.to_N_bounded x) as Hx.
    pose proof (Byte.to_N_bounded y) as Hy.
    pose proof (Byte.to_N_bounded z) as Hz.
    cbn [b64encode]. cbv zeta. cbn [latin1_decode map forallb].
    rewrite !Hchar by byte_arith. exact IH.
Qed.

(** X11. The entry of an image part with a non-empty payload of [n] bytes
    carries a [data] text of [4 * ceil(n / 3)] characters, each a base64
    digit or the padding sign: no quotation mark, space or angle bracket
    can occur in it. *)
Theorem image_entry_data_is_base64 (part : Part) (b : bytes) :
  get_payload part = Ret (Some b) ->
  b <> [] ->
  exists d : str,
    image_entry part = [mkImage (get_content_type part) d]
    /\ forallb is_b64_text d = true
    /\ List.length d = 4 * ((List.length b + 2) / 3).
Proof.
  intros Hpayload Hne. exists (latin1_decode (b64encode b)).
  split; [|split].
  - rewrite image_entry_outcome. unfold image_outcome. rewrite Hpayload.
    destruct b; [contradiction|reflexivity].
  - apply b64encode_text.
  - unfold latin1_decode. rewrite length_map. apply b64encode_length.
Qed.

Lemma image_entry_data_is_base64_witness :
  exists d : str,
    image_entry (part_of_mime image_leaf) = [mkImage (lit "image/png") d]
    /\ forallb is_b64_text d = true
    /\ List.length d = 4 * ((List.length (blit "PNG") + 2) / 3).
Proof.
  apply (image_entry_data_is_base64 (part_of_mime image_leaf) (blit "PNG"));
    [reflexivity|discriminate].
Defined.

(** ** [process_email] *)

Lemma str_or_nonempty (a b : str) : b <> [] -> str_or a b <> [].
Proof.
  unfold str_or. destruct a as [|c a]; cbn [str_truthy];
    [trivial|discriminate].
Qed.

Lemma gen_items_yield_all {A : Type} (items : list A) :
  gen_items (yield_all items Stop) = items.
Proof.
  induction items as [|a items IH]; [reflexivity|].
  cbn [yield_all gen_items]. now rewrite IH.
Qed.

Lemma extract_body_part_tree (m : Mime) :
  exists c f,
    _extract_body_part (message_of_mime m) = Ret (c, f)
    /\ (forall p, c = Some p \/ f = Some p ->
                  exists payload, get_payload p = Ret payload).
Proof.
  assert (Hpart : forall p, In p (mime_parts m) ->
                            exists payload, get_payload p = Ret payload).
  { intros p Hin. apply in_map_iff in Hin as (x & <- & _).
    now exists (mime_payload x). }
  unfold _extract_body_part. cbn [is_multipart message_of_mime walk as_part].
  fold (mime_parts m). destruct (mime_is_multipart m).
  - destruct (body_walk (yield_all (mime_parts m) Stop) None)
      as [[c f]|e] eqn:Hwalk.
    + exists c, f. split; [reflexivity|].
      destruct (body_walk_sound _ _ _ _ Hwalk) as [Hc Hf].
      rewrite gen_items_yield_all in Hc, Hf.
      intros p [->| ->].
      * apply Hpart. now apply (Hc p).
      * destruct Hf as [Hf|(q & [= <-] & Hin & _)];
          [discriminate|now apply Hpart].
    + rewrite body_walk_yield_all in Hwalk.
      destruct (find is_plain (mime_parts m)); discriminate.
  - destruct (str_eqb (get_content_type (part_of_mime m)) (lit "text/plain")
              || str_eqb (get_content_type (part_of_mime m))
                   (lit "text/html")).
    + exists (Some (part_of_mime m)), None. split; [reflexivity|].
      intros p [[= <-]|[=]]. now exists (mime_payload m).
    + exists None, None. split; [reflexivity|]. intros p [[=]|[=]].
Qed.

Section NormalizerFacts.

Variable decode_encoded_words : str -> res (list segment).
Variable codec_decode : str -> bytes -> res str.
Variable get_text : str -> res str.
Variable parsedate_to_datetime : str -> res datetime.

Local Abbreviation decode_mime :=
  (decode_mime decode_encoded_words codec_decode).
Local Abbreviation _decode_body := (_decode_body codec_decode get_text).
Local Abbreviation body_field := (body_field codec_decode get_text).
Local Abbreviation date_field := (date_field parsedate_to_datetime).
Local Abbreviation process_email :=
  (process_email decode_encoded_words codec_decode get_text
     parsedate_to_datetime).

(** [process_email] step by step. *)
Lemma process_email_steps (message : Message) :
  process_email message
  = (dt <- date_field (getitem message (lit "date")) ;;
     sender <- decode_mime (getitem message (lit "from")) ;;
     subj <- decode_mime (getitem message (lit "subject")) ;;
     parts <- _extract_body_part message ;;
     text <- body_field (fst parts) (snd parts) ;;
     Ret (mkEmail dt (str_or sender (lit "Unknown Sender"))
            (str_or subj (lit "No Subject")) text
            (_extract_images message))).
Proof.
  unfold process_email, date_field, body_field.
  destruct (getitem message (lit "date")) as [d|];
    [destruct (str_truthy d);
     [destruct (parsedate_to_datetime d); [|reflexivity]|]|];
    cbn [bind];
    (destruct (decode_mime (getitem message (lit "from"))); [|reflexivity]);
    (destruct (decode_mime (getitem message (lit "subject")));
     [|reflexivity]);
    cbn [bind];
    (destruct (_extract_body_part message) as [[c f]|]; reflexivity).
Qed.

Lemma process_email_inv (message : Message) (r : EmailData) :
  process_email message = Ret r ->
  exists dt sender subj c f text,
    date_field (getitem message (lit "date")) = Ret dt
    /\ decode_mime (getitem message (lit "from")) = Ret sender
    /\ decode_mime (getitem message (lit "subject")) = Ret subj
    /\ _extract_body_part message = Ret (c, f)
    /\ body_field c f = Ret text
    /\ r = mkEmail dt (str_or sender (lit "Unknown Sender"))
             (str_or subj (lit "No Subject")) text
             (_extract_images message).
Proof.
  rewrite process_email_steps.
  destruct (date_field (getitem message (lit "date"))) as [dt|];
    [|discriminate].
  destruct (decode_mime (getitem message (lit "from"))) as [sender|];
    [|discriminate].
  destruct (decode_mime (getitem message (lit "subject"))) as [subj|];
    [|discriminate].
  destruct (_extract_body_part message) as [[c f]|]; [|discriminate].
  cbn [bind fst snd].
  destruct (body_field c f) as [text|] eqn:Hbody; [|discriminate].
  cbn [bind]. intros [= <-].
  now exists dt, sender, subj, c, f, text.
Qed.

Lemma body_field_nonempty (c f : option Part) (text : str) :
  body_field c f = Ret text -> text <> [].
Proof.
  unfold body_field.
  destruct (part_or c f) as [p|]; [destruct (part_truthy p)|].
  - destruct (_decode_body p) as [b|]; [|discriminate].
    cbn [bind]. intros [= <-]. now apply str_or_nonempty.
  - now intros [= <-].
  - now intros [= <-].
Qed.

Lemma decode_mime_empty (text : option str) :
  or_empty text = [] -> decode_mime text = Ret [].
Proof. unfold decode_mime. now intros ->. Qed.

(** X12. In every record [process_email] returns, the sender, the subject
    and the body are non-empty texts: an empty decode result is replaced
    by its sentinel. *)
Theorem process_email_fields_nonempty (message : Message) (r : EmailData) :
  process_email message = Ret r ->
  from r <> [] /\ subject r <> [] /\ body r <> [].
Proof.
  intros Hret.
  destruct (process_email_inv _ _ Hret)
    as (dt & sender & subj & c & f & text & _ & _ & _ & _ & Hbody & ->).
  cbn [from subject body]. repeat split.
  - now apply str_or_nonempty.
  - now apply str_or_nonempty.
  - exact (body_field_nonempty _ _ _ Hbody).
Qed.

(** X13. In a returned record a header that is absent or empty shows as
    its default: the sender ["Unknown Sender"], the subject
    ["No Subject"], and the timestamp [None]; the date parser is not
    called on an absent or empty [Date]. *)
Theorem process_email_defaults (message : Message) (r : EmailData) :
  process_email message = Ret r ->
  (or_empty (getitem message (lit "from")) = [] ->
   from r = lit "Unknown Sender")
  /\ (or_empty (getitem message (lit "subject")) = [] ->
      subject r = lit "No Subject")
  /\ (or_empty (getitem message (lit "date")) = [] -> date r = None).
Proof.
  intros Hret.
  destruct (process_email_inv _ _ Hret)
    as (dt & sender & subj & c & f & text & Hdate & Hfrom & Hsubj & _ & _
        & ->).
  cbn [from subject date]. repeat split; intros Hempty.
  - rewrite (decode_mime_empty _ Hempty) in Hfrom. now injection Hfrom as <-.
  - rewrite (decode_mime_empty _ Hempty) in Hsubj. now injection Hsubj as <-.
  - unfold date_field in Hdate.
    destruct (getitem message (lit "date")) as [[|ch d]|];
      cbn [str_truthy] in Hdate; try discriminate Hempty;
      now injection Hdate as <-.
Qed.

(** X15. A plain-text candidate without any header field is falsy
    ([len(part) == 0]) and is passed over by [text_part or html_part]:
    the body of the record is what the fallback alone gives, and the
    sentinel ["[No content available]"] when there is no fallback, though
    the part has a payload. *)
Theorem process_email_headerless_candidate (message : Message)
    (r : EmailData) (p : Part) (f : option Part) :
  process_email message = Ret r ->
  _extract_body_part message = Ret (Some p, f) ->
  part_len p = 0 ->
  body_field None f = Ret (body r)
  /\ (f = None -> body r = lit "[No content available]").
Proof.
  intros Hret Hsel Hlen.
  destruct (process_email_inv _ _ Hret)
    as (dt & sender & subj & c & f' & text & _ & _ & _ & Hsel' & Hbody & ->).
  rewrite Hsel in Hsel'. injection Hsel' as <- <-. cbn [body].
  assert (Hnone : body_field None f = Ret text).
  { unfold body_field in *. cbn [part_or] in *. unfold part_truthy in Hbody.
    rewrite Hlen in Hbody. exact Hbody. }
  split; [exact Hnone|].
  intros ->. now injection Hnone as <-.
Qed.

Lemma body_field_returns (c f : option Part) :
  (forall p, c = Some p \/ f = Some p ->
             exists payload, get_payload p = Ret payload) ->
  exists text, body_field c f = Ret text.
Proof.
  intros Hpayload. unfold body_field.
  destruct (part_or c f) as [p|] eqn:Hor; [|now eexists].
  destruct (part_truthy p); [|now eexists].
  destruct (Hpayload p (part_or_cases _ _ _ Hor)) as (payload & Hp).
  destruct (decode_body_total codec_decode get_text p payload Hp)
    as (s & -> & _).
  cbn [bind]. now eexists.
Qed.

(** X14. For a message as the parser builds it (a part tree, whose walk
    and payload decodes do not raise) body selection, body decoding and
    image extraction cannot make [process_email] raise: it returns a
    record as soon as the date field and the two header decodes return. *)
Theorem process_email_returns_on_tree (m : Mime) (dt : option datetime)
    (sender subj : str) :
  date_field (header_get (mime_headers m) (lit "date")) = Ret dt ->
  decode_mime (header_get (mime_headers m) (lit "from")) = Ret sender ->
  decode_mime (header_get (mime_headers m) (lit "subject")) = Ret subj ->
  exists text : str,
    process_email (message_of_mime m)
    = Ret (mkEmail dt (str_or sender (lit "Unknown Sender"))
             (str_or subj (lit "No Subject")) text
             (_extract_images (message_of_mime m))).
Proof.
  intros Hdate Hfrom Hsubj. rewrite process_email_steps.
  cbn [getitem message_of_mime]. rewrite Hdate, Hfrom, Hsubj. cbn [bind].
  destruct (extract_body_part_tree m) as (c & f & -> & Hpayload).
  cbn [bind fst snd].
  destruct (body_field_returns c f Hpayload) as (text & ->).
  cbn [bind]. now exists text.
Qed.

End NormalizerFacts.

Lemma process_email_fields_nonempty_witness :
  from (mkEmail None (lit "John Doe") (lit "Hi") (lit "Hello") []) <> []
  /\ subject (mkEmail None (lit "John Doe") (lit "Hi") (lit "Hello") []) <> []
  /\ body (mkEmail None (lit "John Doe") (lit "Hi") (lit "Hello") []) <> [].
Proof.
  apply (process_email_fields_nonempty sample_encoded_words sample_codecs
           sample_get_text sample_parsedate
           (message_of_mime undated_message)).
  reflexivity.
Defined.

Lemma process_email_defaults_witness :
  (or_empty (getitem (message_of_mime (multipart [plain_leaf])) (lit "from"))
   = [] ->
   from (mkEmail None (lit "Unknown Sender") (lit "No Subject")
           (lit "Hello") []) = lit "Unknown Sender")
  /\ (or_empty (getitem (message_of_mime (multipart [plain_leaf]))
                  (lit "subject")) = [] ->
      subject (mkEmail None (lit "Unknown Sender") (lit "No Subject")
                 (lit "Hello") []) = lit "No Subject")
  /\ (or_empty (getitem (message_of_mime (multipart [plain_leaf]))
                  (lit "date")) = [] ->
      date (mkEmail None (lit "Unknown Sender") (lit "No Subject")
              (lit "Hello") []) = None).
Proof.
  apply (process_email_defaults sample_encoded_words sample_codecs
           sample_get_text sample_parsedate
           (message_of_mime (multipart [plain_leaf]))).
  reflexivity.
Defined.

Lemma process_email_headerless_candidate_witness :
  body_field sample_codecs sample_get_text None None
  = Ret (body (mkEmail None (lit "Unknown Sender") (lit "No Subject")
                 (lit "[No content available]") []))
  /\ (@None Part = None ->
      body (mkEmail None (lit "Unknown Sender") (lit "No Subject")
              (lit "[No content available]") [])
      = lit "[No content available]").
Proof.
  apply (process_email_headerless_candidate sample_encoded_words
           sample_codecs sample_get_text sample_parsedate
           (message_of_mime (multipart [headerless_plain_leaf]))
           (mkEmail None (lit "Unknown Sender") (lit "No Subject")
              (lit "[No content available]") [])
           (part_of_mime headerless_plain_leaf) None); reflexivity.
Defined.

Lemma process_email_returns_on_tree_witness :
  exists text : str,
    sample_process_email
      (message_of_mime (dated_message "Mon, 01 Jan 2024 00:00:00 +0000"))
    = Ret (mkEmail (Some (Aware 1704067200000000 0))
             (str_or (lit "John Doe") (lit "Unknown Sender"))
             (str_or (lit "Hi") (lit "No Subject")) text
             (_extract_images
                (message_of_mime
                   (dated_message "Mon, 01 Jan 2024 00:00:00 +0000")))).
Proof.
  apply (process_email_returns_on_tree sample_encoded_words sample_codecs
           sample_get_text sample_parsedate
           (dated_message "Mon, 01 Jan 2024 00:00:00 +0000")
           (Some (Aware 1704067200000000 0)) (lit "John Doe") (lit "Hi"));
    reflexivity.
Defined.

(** ** The ordering expression *)

Section SortedPerm.

Variables (A K : Type) (key : A -> K) (lt : K -> K -> res bool).

Local Abbreviation insert := (insert key lt).
Local Abbreviation sorted := (sorted key lt).

Lemma insert_perm (x : A) (l r : list A) :
  insert x l = Ret r -> Permutation r (x :: l).
Proof.
  revert r; induction l as [|y l IH]; intros r; cbn [insert].
  - now intros [= <-].
  - destruct (lt (key y) (key x)) as [[|]|e]; cbn [bind]; try discriminate.
    + destruct (insert x l) as [r'|e]; cbn [bind]; [|discriminate].
      intros [= <-]. rewrite (IH r' eq_refl). apply perm_swap.
    + now intros [= <-].
Qed.

Lemma sorted_perm (l s : list A) : sorted l = Ret s -> Permutation s l.
Proof.
  revert s; induction l as [|x l IH]; intros s; cbn [sorted].
  - now intros [= <-].
  - destruct (sorted l) as [s'|e]; cbn [bind]; [|discriminate].
    intros Hins. rewrite (insert_perm _ _ _ Hins).
    now rewrite (IH s' eq_refl).
Qed.

(** An element put into a non-empty sorted sequence was compared with the
    head of that sequence. *)
Lemma insert_compared (x y : A) (l r : list A) :
  insert x (y :: l) = Ret r -> exists c, lt (key y) (key x) = Ret c.
Proof.
  cbn [insert]. destruct (lt (key y) (key x)) as [c|e]; [|discriminate].
  now exists c.
Qed.

End SortedPerm.

Lemma filter_partition_perm {A : Type} (f : A -> bool) (l : list A) :
  Permutation (filter f l ++ filter (fun x => negb (f x)) l) l.
Proof.
  induction l as [|x l IH]; [reflexivity|].
  cbn [filter]. destruct (f x); cbn [negb app].
  - now constructor.
  - rewrite <- Permutation_middle. now constructor.
Qed.

Lemma order_perm (emails l : list EmailData) :
  order emails = Ret l -> Permutation l emails.
Proof.
  unfold order.
  destruct (sorted date key_lt (filter has_date emails)) as [s|e] eqn:Hs;
    cbn [bind]; [|discriminate].
  intros [= <-]. rewrite (sorted_perm _ _ _ _ _ _ Hs).
  apply filter_partition_perm.
Qed.

(** X16. When the ordering stage returns, its result is a rearrangement
    of its input: no record is lost, added or duplicated. *)
Theorem order_permutation (emails l : list EmailData) :
  order emails = Ret l -> Permutation l emails.
Proof. exact (order_perm emails l). Qed.

Lemma order_permutation_witness :
  Permutation [aware_record; undated_record] [undated_record; aware_record].
Proof.
  apply (order_permutation [undated_record; aware_record]
           [aware_record; undated_record]).
  reflexivity.
Defined.

Lemma key_lt_returns_same_kind (a b : EmailData) (c : bool) :
  has_date a = true -> has_date b = true ->
  key_lt (date a) (date b) = Ret c -> record_aware a = record_aware b.
Proof.
  unfold has_date, record_aware.
  destruct (date a) as [[x|x ox]|], (date b) as [[y|y oy]|];
    cbn; intros; try discriminate; reflexivity.
Qed.

Lemma sorted_same_kind (l s : list EmailData) :
  Forall (fun e => has_date e = true) l ->
  sorted date key_lt l = Ret s ->
  forall a b, In a l -> In b l -> record_aware a = record_aware b.
Proof.
  revert s; induction l as [|x l IH]; intros s Hall Hs a b Ha Hb;
    [contradiction|].
  apply Forall_cons_iff in Hall as [Hx Hall].
  cbn [sorted] in Hs.
  destruct (sorted date key_lt l) as [s'|e] eqn:Hs'; cbn [bind] in Hs;
    [|discriminate].
  specialize (IH s' Hall eq_refl).
  assert (Hhead : forall z, In z l -> record_aware z = record_aware x).
  { intros z Hz. destruct s' as [|y t].
    - apply (Permutation_in _ (Permutation_sym (sorted_perm _ _ _ _ _ _ Hs')))
        in Hz. contradiction.
    - assert (Hy : In y l)
        by (apply (Permutation_in _ (sorted_perm _ _ _ _ _ _ Hs')); now left).
      destruct (insert_compared _ _ _ _ _ _ _ _ Hs) as (c & Hc).
      rewrite (IH z y Hz Hy).
      apply (key_lt_returns_same_kind y x c); [|assumption|assumption].
      rewrite Forall_forall in Hall. now apply Hall. }
  destruct Ha as [<-|Ha], Hb as [<-|Hb]; try reflexivity.
  - symmetry. now apply Hhead.
  - now apply Hhead.
  - now apply IH.
Qed.

(** X17. The ordering stage returns only on a sequence whose timestamps
    are all offset-aware or all offset-naive: on any sequence that mixes
    the two kinds the sort raises. *)
Theorem order_returns_comparable (emails l : list EmailData) :
  order emails = Ret l -> comparable emails.
Proof.
  unfold order.
  destruct (sorted date key_lt (filter has_date emails)) as [s|e] eqn:Hs;
    cbn [bind]; [|discriminate].
  intros _.
  pose proof (sorted_same_kind _ _ (filter_Forall has_date emails) Hs)
    as Hkind.
  assert (Hdated : forall e d, In e emails -> date e = Some d ->
                               In e (filter has_date emails)).
  { intros e d Hin Hd. apply filter_In. split; [assumption|].
    unfold has_date. now rewrite Hd. }
  destruct (filter has_date emails) as [|h rest] eqn:Hfilter.
  - left. intros e d Hin Hd. destruct (Hdated e d Hin Hd).
  - destruct (record_aware h) eqn:Hh; [left|right]; intros e d Hin Hd;
      pose proof (Hkind e h (Hdated e d Hin Hd) (or_introl eq_refl)) as He;
      unfold record_aware in He at 1; rewrite Hd in He; congruence.
Qed.

Lemma order_returns_comparable_witness :
  comparable [later_aware_record; undated_record; aware_record].
Proof.
  apply (order_returns_comparable
           [later_aware_record; undated_record; aware_record]
           [aware_record; later_aware_record; undated_record]).
  reflexivity.
Defined.

Lemma order_comparable_witness :
  exists dated : list EmailData,
    order [later_aware_record; undated_record; aware_record]
    = Ret (dated ++ filter (fun e => negb (has_date e))
                      [later_aware_record; undated_record; aware_record])
    /\ Permutation dated
         (filter has_date [later_aware_record; undated_record; aware_record])
    /\ StronglySorted (fun a b => (record_ticks a <= record_ticks b)%Z) dated
    /\ (forall t : Z,
          filter (fun e => (record_ticks e =? t)%Z) dated
          = filter (fun e => (record_ticks e =? t)%Z)
              (filter has_date
                 [later_aware_record; undated_record; aware_record])).
Proof.
  apply (order_comparable [later_aware_record; undated_record; aware_record]).
  left. intros e d [<-|[<-|[<-|[]]]]; cbn; intros [= <-]; reflexivity.
Defined.

(** ** The loading loop *)

Lemma mapM_Forall2 {A B : Type} (f : A -> res B) (l : list A) (r : list B) :
  mapM f l = Ret r -> Forall2 (fun a b => f a = Ret b) l r.
Proof.
  revert r; induction l as [|a l IH]; intros r; cbn [mapM].
  - intros [= <-]. constructor.
  - destruct (f a) as [b|e] eqn:Hfa; cbn [bind]; [|discriminate].
    destruct (mapM f l) as [bs|e]; cbn [bind]; [|discriminate].
    intros [= <-]. constructor; [assumption|now apply IH].
Qed.

Lemma mapM_abort {A B : Type} (f : A -> res B) (pre post : list A) (a : A)
    (pre' : list B) (e : exn) :
  mapM f pre = Ret pre' -> f a = Raise e ->
  mapM f (pre ++ a :: post) = Raise e.
Proof.
  revert pre'; induction pre as [|x pre IH]; intros pre' Hpre Ha;
    cbn [app mapM].
  - now rewrite Ha.
  - cbn [mapM] in Hpre. destruct (f x) as [b|e']; cbn [bind] in *;
      [|discriminate].
    destruct (mapM f pre) as [bs|e']; cbn [bind] in Hpre; [|discriminate].
    now rewrite (IH bs eq_refl Ha).
Qed.

Section Loading.

Variable decode_encoded_words : str -> res (list segment).
Variable codec_decode : str -> bytes -> res str.
Variable get_text : str -> res str.
Variable parsedate_to_datetime : str -> res datetime.

Local Abbreviation process_email :=
  (process_email decode_encoded_words codec_decode get_text
     parsedate_to_datetime).
Local Abbreviation load_emails :=
  (load_emails decode_encoded_words codec_decode get_text
     parsedate_to_datetime).


(** X20. One message on which [process_email] raises makes the whole
    loading loop raise that exception, whatever messages follow it; the
    records of the messages before it are lost with it. *)
Theorem load_emails_aborts (before after : list Message) (m : Message)
    (records : list EmailData) (e : exn) :
  load_emails before = Ret records ->
  process_email m = Raise e ->
  load_emails (before ++ m :: after) = Raise e.
Proof. unfold load_emails. apply mapM_abort. Qed.

End Loading.


Lemma load_emails_aborts_witness :
  load_emails sample_encoded_words sample_codecs sample_get_text
    sample_parsedate
    ([message_of_mime undated_message]
       ++ message_of_mime (dated_message "not a date")
       :: [message_of_mime
             (dated_message "Mon, 01 Jan 2024 00:00:00 +0000")])
  = Raise (mkExn ValueError (lit "Invalid date value or format")).
Proof.
  apply (load_emails_aborts sample_encoded_words sample_codecs
           sample_get_text sample_parsedate
           [message_of_mime undated_message]
           [message_of_mime (dated_message "Mon, 01 Jan 2024 00:00:00 +0000")]
           (message_of_mime (dated_message "not a date"))
           [undated_record]); reflexivity.
Defined.

(** ** [html.escape] *)

Lemma replace_char_forallb (p q : codepoint -> bool) (old : codepoint)
    (new s : str) :
  forallb q s = true ->
  forallb p new = true ->
  (forall c, q c = true -> (c =? old)%N = false -> p c = true) ->
  forallb p (replace_char old new s) = true.
Proof.
  intros Hs Hnew Hkeep. induction s as [|c s IH]; [reflexivity|].
  cbn [forallb] in Hs. apply andb_true_iff in Hs as [Hc Hs].
  unfold replace_char. cbn [flat_map]. rewrite forallb_app.
  fold (replace_char old new s). rewrite (IH Hs), andb_true_r.
  destruct (c =? old)%N eqn:Hold; [assumption|].
  cbn [forallb]. now rewrite (Hkeep c Hc Hold).
Qed.

(** X21. The escaped text holds no angle bracket and no quotation mark,
    single or double, whatever the body is: the later replacements do not
    bring back a character an earlier one removed. *)
Theorem escape_no_markup (s : str) :
  forallb (fun c => negb ((c =? 60) || (c =? 62) || (c =? 34) || (c =? 39))%N)
    (escape s) = true.
Proof.
  unfold escape.
  set (s0 := replace_char 38%N (lit "&amp;") s).
  assert (H1 : forallb (fun c => negb (c =? 60)%N)
                 (replace_char 60%N (lit "&lt;") s0) = true).
  { apply (replace_char_forallb _ (fun _ => true)); [|reflexivity|].
    - clear. induction s0; [reflexivity|assumption].
    - intros c _ ->. reflexivity. }
  set (s1 := replace_char 60%N (lit "&lt;") s0) in *.
  assert (H2 : forallb (fun c => negb ((c =? 60) || (c =? 62))%N)
                 (replace_char 62%N (lit "&gt;") s1) = true).
  { apply (replace_char_forallb _ _ _ _ _ H1); [reflexivity|].
    intros c Hc ->. apply negb_true_iff in Hc. now rewrite Hc. }
  set (s2 := replace_char 62%N (lit "&gt;") s1) in *.
  assert (H3 : forallb
                 (fun c => negb ((c =? 60) || (c =? 62) || (c =? 34))%N)
                 (replace_char 34%N (lit "&quot;") s2) = true).
  { apply (replace_char_forallb _ _ _ _ _ H2); [reflexivity|].
    intros c Hc ->. apply negb_true_iff in Hc. now rewrite Hc. }
  set (s3 := replace_char 34%N (lit "&quot;") s2) in *.
  apply (replace_char_forallb _ _ _ _ _ H3); [reflexivity|].
  intros c Hc ->. apply negb_true_iff in Hc. now rewrite Hc.
Qed.
